(** * Checkers rules engine: a shallow embedding of [game.py]

    The class [CheckersGame] keeps an 8x8 numpy array of integers and the
    side to move.  Its methods are embedded in a state-and-exception monad
    over the engine state, so that reads, writes and raised exceptions of the
    Python code are all visible in the model. *)

From stdpp Require Import base list gmap strings pretty.
From Stdlib Require Import ZArith Lia Ascii.

Local Open Scope Z_scope.

(** ** Engine state and the monad of its methods *)

(** [self.board] (rows of cells) and [self.current_player]. *)
Record CheckersGame : Type := mkGame {
  board : list (list Z);
  current_player : Z
}.

(** The exceptions the methods can raise.  [FuelExhausted] is not a Python
    exception: it marks a recursion that ran out of the model's fuel. *)
Inductive exn : Type :=
| IndexError
| AttributeError
| KeyError
| FuelExhausted.

(** A method call: from the engine state to the state it leaves behind and
    either the exception it raised or its result. *)
Definition M (A : Type) : Type := CheckersGame -> CheckersGame * (exn + A).

Definition ret {A : Type} (a : A) : M A := fun g => (g, inr a).

Definition raise {A : Type} (e : exn) : M A := fun g => (g, inl e).

Definition bind {A B : Type} (m : M A) (k : A -> M B) : M B :=
  fun g =>
    match m g with
    | (g', inl e) => (g', inl e)
    | (g', inr a) => k a g'
    end.

Notation "'let*' x ':=' m 'in' k" := (bind m (fun x => k))
  (at level 10, x pattern, m at level 100, k at level 200).
Notation "m ;; k" := (bind m (fun _ => k))
  (at level 100, right associativity).

(** A [for] loop that threads its local variables [acc] through the body. *)
Fixpoint for_each {A S : Type} (xs : list A) (body : S -> A -> M S) (acc : S) : M S :=
  match xs with
  | [] => ret acc
  | x :: xs' => let* acc' := body acc x in for_each xs' body acc'
  end.

(** ** numpy indexing *)

(** An index into an axis of size [n]: negative indices count from the end,
    anything outside [-n, n) is an [IndexError]. *)
Definition py_index (n : nat) (i : Z) : option nat :=
  if decide (0 <= i < Z.of_nat n) then Some (Z.to_nat i)
  else if decide (- Z.of_nat n <= i < 0) then Some (Z.to_nat (i + Z.of_nat n))
  else None.

(** [b[r][c]] *)
Definition ndarray_get (b : list (list Z)) (r c : Z) : option Z :=
  match py_index (length b) r with
  | None => None
  | Some i =>
      match b !! i with
      | None => None
      | Some line =>
          match py_index (length line) c with
          | None => None
          | Some j => line !! j
          end
      end
  end.

(** [b[r][c] = v] *)
Definition ndarray_set (b : list (list Z)) (r c v : Z) : option (list (list Z)) :=
  match py_index (length b) r with
  | None => None
  | Some i =>
      match b !! i with
      | None => None
      | Some line =>
          match py_index (length line) c with
          | None => None
          | Some j => Some (<[i := <[j := v]> line]> b)
          end
      end
  end.

(** [self.board[r][c]] as an expression. *)
Definition board_get (r c : Z) : M Z :=
  fun g =>
    match ndarray_get (board g) r c with
    | Some v => (g, inr v)
    | None => (g, inl IndexError)
    end.

(** [self.board[r][c] = v] as a statement. *)
Definition board_set (r c v : Z) : M unit :=
  fun g =>
    match ndarray_set (board g) r c v with
    | Some b' => (mkGame b' (current_player g), inr tt)
    | None => (g, inl IndexError)
    end.

Definition get_player : M Z := fun g => (g, inr (current_player g)).

Definition set_player (p : Z) : M unit := fun g => (mkGame (board g) p, inr tt).

(** ** Python helpers *)

Definition pos : Type := Z * Z.
Definition move : Type := pos * list pos.

(** [range(lo, hi)] for [lo <= hi], as the list of its values. *)
Definition range (lo hi : Z) : list Z :=
  map (fun k => lo + Z.of_nat k) (seq 0 (Z.to_nat (hi - lo))).

(** [x in [a, b, ...]] on integers. *)
Definition py_in (x : Z) (l : list Z) : bool := existsb (Z.eqb x) l.

(** Truth value of a list: non-empty. *)
Definition truthy {A : Type} (l : list A) : bool :=
  match l with [] => false | _ :: _ => true end.

(** [enumerate(l)], counting from [i]. *)
Fixpoint enumerate_from {A : Type} (i : Z) (l : list A) : list (Z * A) :=
  match l with
  | [] => []
  | x :: l' => (i, x) :: enumerate_from (i + 1) l'
  end.

(** ** The class *)

(** [np.zeros((8, 8), dtype=int)] *)
Definition zeros_8x8 : list (list Z) := replicate 8 (replicate 8 0).

Definition _initialize_board : M unit :=
  for_each (range 0 3) (fun _ row =>
    for_each (range 0 8) (fun _ col =>
      if (row + col) mod 2 =? 1 then board_set row col 1 else ret tt) tt) tt ;;
  for_each (range 5 8) (fun _ row =>
    for_each (range 0 8) (fun _ col =>
      if (row + col) mod 2 =? 1 then board_set row col 3 else ret tt) tt) tt.

(** [__init__]: the state of a freshly constructed engine, that is, what
    [_initialize_board] leaves of the zero array with Black (1) to move. *)
Definition new_game : CheckersGame :=
  Eval vm_compute in fst (_initialize_board (mkGame zeros_8x8 1)).

Definition _is_current_players_piece (piece : Z) : M bool :=
  let* p := get_player in
  if p =? 1 then ret (py_in piece [1; 2]) else ret (py_in piece [3; 4]).

Definition _is_opponent_piece (piece : Z) : M bool :=
  let* p := get_player in
  if p =? 1 then ret (py_in piece [3; 4]) else ret (py_in piece [1; 2]).

Definition _is_valid_position (row col : Z) : bool :=
  (0 <=? row) && (row <? 8) && (0 <=? col) && (col <? 8).

(** The [directions] list built at the top of [_get_normal_moves]. *)
Definition normal_directions (piece : Z) : list (Z * Z) :=
  let directions := [] in
  let directions :=
    if py_in piece [1; 2] then directions ++ [(1, -1); (1, 1)] else directions in
  let directions :=
    if py_in piece [3; 4] then directions ++ [(-1, -1); (-1, 1)] else directions in
  if py_in piece [2; 4]
  then directions ++ (if piece =? 2 then [(-1, -1); (-1, 1)] else [(1, -1); (1, 1)])
  else directions.

Definition _get_normal_moves (row col : Z) : M (list pos) :=
  let* piece := board_get row col in
  for_each (normal_directions piece) (fun moves '(dr, dc) =>
    let new_row := row + dr in
    let new_col := col + dc in
    if _is_valid_position new_row new_col then
      let* v := board_get new_row new_col in
      if v =? 0 then ret (moves ++ [(new_row, new_col)]) else ret moves
    else ret moves) [].

(** The [directions] list built at the top of [_find_capture_sequences]. *)
Definition capture_directions (piece : Z) : list (Z * Z) :=
  if py_in piece [2; 4] then [(2, -2); (2, 2); (-2, -2); (-2, 2)]
  else if piece =? 1 then [(2, -2); (2, 2)]
  else if piece =? 3 then [(-2, -2); (-2, 2)]
  else [].

(** The condition of the [if] inside the loop of [_find_capture_sequences];
    [and] evaluates its right operand only when the left one holds. *)
Definition jump_admissible (row col dx dy : Z) (visited : gset pos) : M bool :=
  let new_row := row + dx in
  let new_col := col + dy in
  let jumped_row := row + dx / 2 in
  let jumped_col := col + dy / 2 in
  if bool_decide ((new_row, new_col) ∈ visited) then ret false
  else if negb (_is_valid_position new_row new_col) then ret false
  else
    let* v := board_get new_row new_col in
    if negb (v =? 0) then ret false
    else
      let* j := board_get jumped_row jumped_col in
      _is_opponent_piece j.

(** The lists [all_sequences] and the set [visited] are objects the callee
    mutates: they are passed in and handed back.  [found_capture] is local. *)
Fixpoint _find_capture_sequences (fuel : nat) (row col : Z)
    (current_sequence : list pos) (all_sequences : list (list pos))
    (visited : gset pos) : M (list (list pos) * gset pos) :=
  match fuel with
  | O => raise FuelExhausted
  | S fuel' =>
      let* piece := board_get row col in
      let* (found_capture, all_sequences, visited) :=
        for_each (capture_directions piece)
          (fun '(found_capture, all_sequences, visited) '(dx, dy) =>
             let new_row := row + dx in
             let new_col := col + dy in
             let* ok := jump_admissible row col dx dy visited in
             if ok : bool then
               let visited := visited ∪ {[ (new_row, new_col) ]} in
               let new_sequence := current_sequence ++ [(new_row, new_col)] in
               let* (all_sequences, visited) :=
                 _find_capture_sequences fuel' new_row new_col new_sequence
                   all_sequences visited in
               if bool_decide ((new_row, new_col) ∈ visited)
               then ret (true, all_sequences, visited ∖ {[ (new_row, new_col) ]})
               else raise KeyError
             else ret (found_capture, all_sequences, visited))
          (false, all_sequences, visited) in
      if negb found_capture && truthy current_sequence
      then ret (all_sequences ++ [current_sequence], visited)
      else ret (all_sequences, visited)
  end.

(** A landing square is never landed on twice within a chain, so a chain of
    the search has at most 64 jumps. *)
Definition search_depth : nat := 65.

Definition _get_capture_moves (row col : Z) : M (list (list pos)) :=
  let* (captures, _) := _find_capture_sequences search_depth row col [] [] ∅ in
  ret captures.

Definition get_valid_moves : M (list move) :=
  let* (moves, capture_moves) :=
    for_each (range 0 8) (fun acc row =>
      for_each (range 0 8) (fun '(moves, capture_moves) col =>
        let* piece := board_get row col in
        let* mine := _is_current_players_piece piece in
        if mine : bool then
          let* piece_captures := _get_capture_moves row col in
          if truthy piece_captures then
            ret (moves,
                 capture_moves ++
                   map (fun captures => ((row, col), captures)) piece_captures)
          else
            let* piece_moves := _get_normal_moves row col in
            ret (moves ++ map (fun m => ((row, col), [m])) piece_moves,
                 capture_moves)
        else ret (moves, capture_moves)) acc) ([], []) in
  if truthy capture_moves then ret capture_moves else ret moves.

(** The kinging test of the last step of [make_move]. *)
Definition kinged (piece new_row : Z) : Z :=
  if (piece =? 1) && (new_row =? 7) then 2
  else if (piece =? 3) && (new_row =? 0) then 4
  else piece.

(** The body of the loop of [make_move], for the element [(i, (new_row,
    new_col))] of [enumerate(moves)]; [row], [col] and [piece] are the local
    variables the loop updates, [last] is [len(moves) - 1]. *)
Definition make_move_step (last : Z) : Z * Z * Z -> Z * pos -> M (Z * Z * Z) :=
  fun '(row, col, piece) '(i, (new_row, new_col)) =>
    (if Z.abs (new_row - row) =? 2 then
       let jumped_row := (new_row + row) / 2 in
       let jumped_col := (new_col + col) / 2 in
       board_set jumped_row jumped_col 0
     else ret tt) ;;
    let* piece :=
      (if i =? last then
         let piece := kinged piece new_row in
         board_set new_row new_col piece ;; ret piece
       else ret piece) in
    ret (new_row, new_col, piece).

Definition make_move (start_pos : pos) (moves : list pos) : M unit :=
  let '(row, col) := start_pos in
  let* piece := board_get row col in
  board_set row col 0 ;;
  for_each (enumerate_from 0 moves)
    (make_move_step (Z.of_nat (length moves) - 1)) (row, col, piece) ;;
  let* p := get_player in
  set_player (p * -1).

Definition is_game_over : M bool :=
  let* ms := get_valid_moves in
  ret (Z.of_nat (length ms) =? 0).

Definition get_winner : M (option Z) :=
  let* over := is_game_over in
  if negb over then ret None
  else let* p := get_player in ret (Some (- p)).

(** Attribute lookup on a [numpy.ndarray]: of the names the class uses, the
    array type has a method [copy] and nothing called [deepcopy]. *)
Definition ndarray_getattr (name : string) : option (list (list Z) -> list (list Z)) :=
  if String.eqb name "copy" then Some (fun b => b) else None.

Definition get_state : M (list (list Z)) :=
  fun g =>
    match ndarray_getattr "deepcopy" with
    | Some method => (g, inr (method (board g)))
    | None => (g, inl AttributeError)
    end.

(** A line break, the character [\n] of the Python strings. *)
Definition newline : string := String (Ascii.ascii_of_nat 10) "".

(** The dictionary [symbols] of [__str__]. *)
Definition symbols : gmap Z string :=
  <[0 := "."]> (<[1 := "b"]> (<[2 := "B"]> (<[3 := "w"]> (<[4 := "W"]> ∅)))).

(** [symbols[v]], a [KeyError] when the key is missing. *)
Definition symbols_getitem (v : Z) : M string :=
  match symbols !! v with
  | Some sym => ret sym
  | None => raise KeyError
  end.

Definition __str__ : M string :=
  let board_str := "  0 1 2 3 4 5 6 7" +:+ newline in
  for_each (range 0 8) (fun board_str i =>
    let board_str := board_str +:+ (pretty i +:+ " ") in
    let* board_str :=
      for_each (range 0 8) (fun board_str j =>
        let* v := board_get i j in
        let* sym := symbols_getitem v in
        ret (board_str +:+ (sym +:+ " "))) board_str in
    ret (board_str +:+ newline)) board_str.

(** ** Vocabulary of the statements *)

(** The array has the shape [(8, 8)] it is created with. *)
Definition wf_board (b : list (list Z)) : Prop :=
  length b = 8%nat /\ Forall (fun line => length line = 8%nat) b.

Definition wf_game (g : CheckersGame) : Prop := wf_board (board g).

(** A position of the board, [0 <= row < 8] and [0 <= col < 8]. *)
Definition on_board (p : pos) : Prop := 0 <= p.1 < 8 /\ 0 <= p.2 < 8.

(** What the board holds at a position. *)
Definition cell (g : CheckersGame) (p : pos) : option Z :=
  ndarray_get (board g) p.1 p.2.

(** The square reached from [p] by the offset [d], and the square half-way
    (with Python's floor division, as the search computes it). *)
Definition shift (p : pos) (d : Z * Z) : pos := (p.1 + d.1, p.2 + d.2).
Definition jumped (p : pos) (d : Z * Z) : pos := (p.1 + d.1 / 2, p.2 + d.2 / 2).

(** The answers of the two ownership tests in state [g]. *)
Definition mine (g : CheckersGame) (piece : Z) : bool :=
  if current_player g =? 1 then py_in piece [1; 2] else py_in piece [3; 4].
Definition theirs (g : CheckersGame) (piece : Z) : bool :=
  if current_player g =? 1 then py_in piece [3; 4] else py_in piece [1; 2].

(** A method run that does not touch the engine state, whatever it returns
    or raises. *)
Definition read_only {A : Type} (m : M A) : Prop :=
  forall g, (m g).1 = g.

(** ** Vocabulary of the move rules *)

(** The jump from [p] by [d] that the search accepts on the board of [g]:
    the landing square is on the board and empty, and the square jumped over
    holds a piece of the side that is not to move. *)
Definition can_jump (g : CheckersGame) (p : pos) (d : Z * Z) : Prop :=
  on_board (shift p d) /\ cell g (shift p d) = Some 0 /\
  exists j, cell g (jumped p d) = Some j /\ theirs g j = true.

(** A one-jump capture of a piece of the side to move. *)
Definition is_jump_move (g : CheckersGame) (m : move) : Prop :=
  on_board m.1 /\
  exists piece d,
    cell g m.1 = Some piece /\ mine g piece = true /\
    In d (capture_directions piece) /\ can_jump g m.1 d /\
    m.2 = [shift m.1 d].

(** A one-square step of a piece of the side to move onto an empty square. *)
Definition is_step_move (g : CheckersGame) (m : move) : Prop :=
  on_board m.1 /\
  exists piece d,
    cell g m.1 = Some piece /\ mine g piece = true /\
    In d (normal_directions piece) /\
    on_board (shift m.1 d) /\ cell g (shift m.1 d) = Some 0 /\
    m.2 = [shift m.1 d].

(** ** Vocabulary of move application *)

(** The engine after the assignment [self.board[p] = v]. *)
Definition poke (g : CheckersGame) (p : pos) (v : Z) : CheckersGame :=
  (board_set p.1 p.2 v g).1.

(** The square half-way between two squares, as [make_move] computes it. *)
Definition midpoint (p q : pos) : pos := ((q.1 + p.1) / 2, (q.2 + p.2) / 2).

(** ** Counting and parity *)

(** The 64 positions of the board. *)
Definition squares : list pos := list_prod (range 0 8) (range 0 8).

Definition occupied (g : CheckersGame) (p : pos) : bool :=
  match cell g p with
  | Some v => negb (v =? 0)
  | None => false
  end.

(** The number of non-empty squares. *)
Definition count_pieces (g : CheckersGame) : nat :=
  length (List.filter (occupied g) squares).

(** The squares [make_move] clears as jumped over when it walks [seq] from
    [p]: the midpoint of every step whose row delta has magnitude 2. *)
Fixpoint capture_midpoints (p : pos) (seq : list pos) : list pos :=
  match seq with
  | [] => []
  | q :: seq' =>
      (if Z.abs (q.1 - p.1) =? 2 then [midpoint p q] else []) ++
      capture_midpoints q seq'
  end.

(** The effect of [make_move] on the move [m], from [g] to [g']: the start
    square and the jumped squares are emptied, the piece lands (kinged if it
    must be) on the destination, nothing else changes, and the side to move
    is flipped. *)
Definition applies (g : CheckersGame) (m : move) (g' : CheckersGame) : Prop :=
  exists piece d,
    m.2 = [d] /\ on_board m.1 /\ on_board d /\
    cell g m.1 = Some piece /\ mine g piece = true /\ cell g d = Some 0 /\
    (d.1 + d.2) mod 2 = (m.1.1 + m.1.2) mod 2 /\
    make_move m.1 m.2 g = (g', inr tt) /\ wf_game g' /\
    current_player g' = - current_player g /\
    cell g' m.1 = Some 0 /\
    cell g' d = Some (kinged piece d.1) /\
    (forall q, In q (capture_midpoints m.1 m.2) ->
       on_board q /\ cell g' q = Some 0 /\
       exists j, cell g q = Some j /\ theirs g j = true) /\
    (forall q, on_board q -> q <> m.1 -> q <> d ->
       ~ In q (capture_midpoints m.1 m.2) -> cell g' q = cell g q) /\
    (count_pieces g' + length (capture_midpoints m.1 m.2) = count_pieces g)%nat.

(** ** Sides, ranks and the states of a game *)

(** The encoding of the squares, from the comment in the class body:
    0 empty, 1 black piece, 2 black king, 3 white piece, 4 white king. *)
Inductive Side : Type := Black | White.
Inductive Rank : Type := Man | King.

Definition piece_kind (v : Z) : option (Side * Rank) :=
  if v =? 1 then Some (Black, Man)
  else if v =? 2 then Some (Black, King)
  else if v =? 3 then Some (White, Man)
  else if v =? 4 then Some (White, King)
  else None.

(** The row on which a man of a side is kinged. *)
Definition crown_row (sd : Side) : Z :=
  match sd with Black => 7 | White => 0 end.

(** The number of steps of [seq], walked from [p], whose row delta has
    magnitude 2. *)
Fixpoint capture_steps (p : pos) (seq : list pos) : nat :=
  match seq with
  | [] => 0
  | q :: seq' =>
      let jump := Z.abs (q.1 - p.1) =? 2 in
      ((if jump then 1 else 0) + capture_steps q seq')%nat
  end.

(** Squares of even parity are empty. *)
Definition dark_only (g : CheckersGame) : Prop :=
  forall p, on_board p -> (p.1 + p.2) mod 2 = 0 -> cell g p = Some 0.

(** The states of a game: the initial one, and those reached by applying a
    move that [get_valid_moves] returned. *)
Inductive reachable : CheckersGame -> Prop :=
| reachable_new : reachable new_game
| reachable_move g ms m g' :
    reachable g -> get_valid_moves g = (g, inr ms) -> In m ms ->
    make_move m.1 m.2 g = (g', inr tt) -> reachable g'.

(** ** Positions of the examples *)

(** Black to move; a Black man on (4,3), White men on (5,4) and (5,6), and
    nothing else on the board. *)
Definition double_jump_position : CheckersGame :=
  mkGame
    [ [0; 0; 0; 0; 0; 0; 0; 0];
      [0; 0; 0; 0; 0; 0; 0; 0];
      [0; 0; 0; 0; 0; 0; 0; 0];
      [0; 0; 0; 0; 0; 0; 0; 0];
      [0; 0; 0; 1; 0; 0; 0; 0];
      [0; 0; 0; 0; 3; 0; 3; 0];
      [0; 0; 0; 0; 0; 0; 0; 0];
      [0; 0; 0; 0; 0; 0; 0; 0] ] 1.

(** The same position with a Black king on (4,3) instead of the man. *)
Definition king_double_jump_position : CheckersGame :=
  mkGame
    [ [0; 0; 0; 0; 0; 0; 0; 0];
      [0; 0; 0; 0; 0; 0; 0; 0];
      [0; 0; 0; 0; 0; 0; 0; 0];
      [0; 0; 0; 0; 0; 0; 0; 0];
      [0; 0; 0; 2; 0; 0; 0; 0];
      [0; 0; 0; 0; 3; 0; 3; 0];
      [0; 0; 0; 0; 0; 0; 0; 0];
      [0; 0; 0; 0; 0; 0; 0; 0] ] 1.

(** Black to move, a Black man on (6,1) one step from the last row. *)
Definition promotion_position : CheckersGame :=
  mkGame
    [ [0; 0; 0; 0; 0; 0; 0; 0];
      [0; 0; 0; 0; 0; 0; 0; 0];
      [0; 0; 0; 0; 0; 0; 0; 0];
      [0; 0; 0; 0; 0; 0; 0; 0];
      [0; 0; 0; 0; 0; 0; 0; 0];
      [0; 0; 0; 0; 0; 0; 0; 0];
      [0; 1; 0; 0; 0; 0; 0; 0];
      [0; 0; 0; 0; 0; 0; 0; 0] ] 1.

(** Black to move, a Black man on (5,2) with White men on (6,3) and (6,5):
    a walk from (5,2) over (7,4) to (5,6) touches the last row in the
    middle. *)
Definition last_row_midway_position : CheckersGame :=
  mkGame
    [ [0; 0; 0; 0; 0; 0; 0; 0];
      [0; 0; 0; 0; 0; 0; 0; 0];
      [0; 0; 0; 0; 0; 0; 0; 0];
      [0; 0; 0; 0; 0; 0; 0; 0];
      [0; 0; 0; 0; 0; 0; 0; 0];
      [0; 0; 1; 0; 0; 0; 0; 0];
      [0; 0; 0; 3; 0; 3; 0; 0];
      [0; 0; 0; 0; 0; 0; 0; 0] ] 1.

(** The state after Black's first move from (2,1) to (3,0). *)
Definition after_first_move : CheckersGame :=
  Eval vm_compute in (make_move (2, 1) [(3, 0)] new_game).1.

(** ** Vocabulary of the further properties *)

(** The engine after the assignments [self.board[p] = v] for the positions
    [p] of [ps], in order. *)
Definition paint (g : CheckersGame) (ps : list pos) (v : Z) : CheckersGame :=
  fold_left (fun h p => poke h p v) ps g.

(** The squares of odd parity of the rows [rows], row by row. *)
Definition odd_squares (rows : list Z) : list pos :=
  flat_map (fun row =>
              map (pair row)
                  (List.filter (fun col => (row + col) mod 2 =? 1) (range 0 8)))
           rows.

(** Every square holds one of the five values of the encoding. *)
Definition valid_cells (g : CheckersGame) : Prop :=
  forall p, on_board p -> exists v, cell g p = Some v /\ 0 <= v <= 4.

(** The side whose pieces [_is_current_players_piece] accepts, and the
    other one. *)
Definition mover (g : CheckersGame) : Side :=
  if current_player g =? 1 then Black else White.

Definition other_side (sd : Side) : Side :=
  match sd with Black => White | White => Black end.

Definition same_side (a b : Side) : bool :=
  match a, b with
  | Black, Black | White, White => true
  | _, _ => false
  end.

(** A square holds a piece of side [sd]. *)
Definition holds_side (g : CheckersGame) (sd : Side) (p : pos) : bool :=
  match cell g p with
  | Some v =>
      match piece_kind v with
      | Some (sd', _) => same_side sd' sd
      | None => false
      end
  | None => false
  end.

(** The number of pieces of a side on the board. *)
Definition count_side (g : CheckersGame) (sd : Side) : nat :=
  length (List.filter (holds_side g sd) squares).

(** The character [__str__] prints for a square. *)
Definition glyph (g : CheckersGame) (p : pos) : ascii :=
  match cell g p with
  | Some v =>
      match symbols !! v with
      | Some (String ch _) => ch
      | _ => "?"%char
      end
  | None => "?"%char
  end.

(** The text the two loops of [__str__] build when every lookup succeeds,
    [ch] giving the character of each square. *)
Definition dump (ch : pos -> ascii) : string :=
  fold_left
    (fun board_str i =>
       fold_left (fun board_str j => board_str +:+ (String (ch (i, j)) "" +:+ " "))
                 (range 0 8) (board_str +:+ (pretty i +:+ " "))
       +:+ newline)
    (range 0 8) ("  0 1 2 3 4 5 6 7" +:+ newline).

(** The offset in the text of the character of a square. *)
Definition text_offset (p : pos) : nat := Z.to_nat (20 + 19 * p.1 + 2 * p.2).

(** An index numpy accepts for an axis of size 8. *)
Definition indexable (i : Z) : Prop := -8 <= i < 8.

(** * Proofs *)

(** ** The monad *)

Lemma bind_ok {A B : Type} (m : M A) (k : A -> M B) g g' a :
  m g = (g', inr a) -> bind m k g = k a g'.
Proof. intros H. unfold bind. by rewrite H. Qed.

Lemma bind_raise {A B : Type} (m : M A) (k : A -> M B) g g' e :
  m g = (g', inl e) -> bind m k g = (g', inl e).
Proof. intros H. unfold bind. by rewrite H. Qed.

Lemma bind_ext {A B : Type} (m : M A) (k1 k2 : A -> M B) g :
  (forall a h, k1 a h = k2 a h) -> bind m k1 g = bind m k2 g.
Proof. intros H. unfold bind. destruct (m g) as [g' [e | a]]; [done | apply H]. Qed.

Lemma bind_cong {A B : Type} (m1 m2 : M A) (k : A -> M B) g :
  m1 g = m2 g -> bind m1 k g = bind m2 k g.
Proof. intros H. unfold bind. by rewrite H. Qed.

Lemma for_each_ext {A S : Type} (xs : list A) (b1 b2 : S -> A -> M S) acc g :
  (forall s x h, b1 s x h = b2 s x h) ->
  for_each xs b1 acc g = for_each xs b2 acc g.
Proof.
  intros H. revert acc g. induction xs as [| x xs IH]; intros acc g; [done |].
  simpl. unfold bind. rewrite H.
  destruct (b2 acc x g) as [g' [e | acc']]; [done | apply IH].
Qed.

Lemma read_only_ret {A : Type} (a : A) : read_only (ret a).
Proof. by intros g. Qed.

Lemma read_only_raise {A : Type} (e : exn) : read_only (@raise A e).
Proof. by intros g. Qed.

Lemma read_only_bind {A B : Type} (m : M A) (k : A -> M B) :
  read_only m -> (forall a, read_only (k a)) -> read_only (bind m k).
Proof.
  intros Hm Hk g. unfold bind. specialize (Hm g).
  destruct (m g) as [g' [e | a]]; simpl in *; subst; [done | apply Hk].
Qed.

Lemma read_only_for_each {A S : Type} (xs : list A) (body : S -> A -> M S) acc :
  (forall s x, read_only (body s x)) -> read_only (for_each xs body acc).
Proof.
  intros Hbody. revert acc.
  induction xs as [| x xs IH]; intros acc; simpl.
  - apply read_only_ret.
  - apply read_only_bind; [apply Hbody | apply IH].
Qed.

Lemma for_each_cons {A S : Type} x (xs : list A) (body : S -> A -> M S) acc g :
  for_each (x :: xs) body acc g = bind (body acc x) (for_each xs body) g.
Proof. done. Qed.

Lemma for_each_app {A S : Type} (xs ys : list A) (body : S -> A -> M S) acc g :
  for_each (xs ++ ys) body acc g =
  bind (for_each xs body acc) (for_each ys body) g.
Proof.
  revert acc g. induction xs as [| x xs IH]; intros acc g; simpl.
  - done.
  - unfold bind. destruct (body acc x g) as [g' [e | acc']]; [done |].
    by rewrite IH.
Qed.

Lemma read_only_board_get r c : read_only (board_get r c).
Proof. intros g. unfold board_get. by destruct (ndarray_get _ _ _). Qed.

Lemma read_only_get_player : read_only get_player.
Proof. by intros g. Qed.

Lemma read_only_if {A : Type} (b : bool) (m1 m2 : M A) :
  read_only m1 -> read_only m2 -> read_only (if b then m1 else m2).
Proof. by destruct b. Qed.

Create HintDb ro discriminated.
#[local] Hint Extern 1 (read_only (ret _)) => apply read_only_ret : ro.
#[local] Hint Extern 1 (read_only (raise _)) => apply read_only_raise : ro.
#[local] Hint Extern 1 (read_only (board_get _ _)) => apply read_only_board_get : ro.
#[local] Hint Extern 1 (read_only get_player) => apply read_only_get_player : ro.

(** Closes the goals of a proof that a method only reads, once the loops
    and the binds that bind a pattern are opened by hand. *)
Ltac ro_auto :=
  repeat first
    [ solve [ auto with ro ]
    | apply read_only_if
    | apply read_only_bind; [| intro ] ].

(** ** numpy indexing on an 8x8 array *)

Lemma valid_position_on_board r c :
  _is_valid_position r c = true <-> on_board (r, c).
Proof. unfold _is_valid_position, on_board. simpl. lia. Qed.

Lemma valid_position_off_board r c :
  _is_valid_position r c = false <-> ~ on_board (r, c).
Proof.
  rewrite <- valid_position_on_board. by destruct (_is_valid_position r c).
Qed.

Lemma py_index_on (n : nat) (i : Z) :
  0 <= i < Z.of_nat n -> py_index n i = Some (Z.to_nat i).
Proof. intros H. unfold py_index. by rewrite decide_True. Qed.

Lemma wf_board_line b i line :
  wf_board b -> b !! i = Some line -> length line = 8%nat.
Proof.
  intros [_ Hall] Hi. rewrite Forall_lookup in Hall. by apply (Hall i).
Qed.

Lemma ndarray_get_on b p :
  wf_board b -> on_board p -> is_Some (ndarray_get b p.1 p.2).
Proof.
  intros Hwf [Hr Hc]. unfold ndarray_get.
  destruct Hwf as [Hlen Hall].
  rewrite Hlen, py_index_on by lia.
  destruct (lookup_lt_is_Some_2 b (Z.to_nat p.1)) as [line Hline]; [lia |].
  rewrite Hline.
  assert (length line = 8%nat) as Hl by (eapply wf_board_line; [split |]; eauto).
  rewrite Hl, py_index_on by lia.
  apply lookup_lt_is_Some_2. lia.
Qed.

(** An in-range write succeeds, keeps the shape, is read back, and leaves
    every other position as it was. *)
Lemma ndarray_set_on b p v :
  wf_board b -> on_board p ->
  exists b',
    ndarray_set b p.1 p.2 v = Some b' /\ wf_board b' /\
    ndarray_get b' p.1 p.2 = Some v /\
    forall q, on_board q -> q <> p ->
      ndarray_get b' q.1 q.2 = ndarray_get b q.1 q.2.
Proof.
  intros Hwf [Hr Hc]. destruct p as [r c]; simpl in *.
  unfold ndarray_set. pose proof Hwf as [Hlen Hall].
  rewrite Hlen, py_index_on by lia.
  destruct (lookup_lt_is_Some_2 b (Z.to_nat r)) as [line Hline]; [lia |].
  rewrite Hline.
  assert (length line = 8%nat) as Hl by (eapply wf_board_line; eauto).
  rewrite Hl, py_index_on by lia.
  eexists; split; [done |].
  assert (wf_board (<[Z.to_nat r := <[Z.to_nat c := v]> line]> b)) as Hwf'.
  { split; [by rewrite length_insert |].
    apply Forall_insert; [done | by rewrite length_insert]. }
  split; [done |]. split.
  - unfold ndarray_get. rewrite length_insert, Hlen, py_index_on by lia.
    rewrite list_lookup_insert_eq by lia.
    rewrite length_insert, Hl, py_index_on by lia.
    apply list_lookup_insert_eq. lia.
  - intros [r' c'] [Hr' Hc'] Hne; simpl in *.
    unfold ndarray_get. rewrite length_insert, Hlen, !py_index_on by lia.
    destruct (decide (r' = r)) as [-> | Hrr].
    + rewrite list_lookup_insert_eq, Hline by lia.
      rewrite length_insert, Hl, !py_index_on by lia.
      apply list_lookup_insert_ne. intros Heq. apply Hne. f_equal. lia.
    + rewrite list_lookup_insert_ne by lia. done.
Qed.

(** ** Reads and writes of the engine *)

Lemma cell_on g p : wf_game g -> on_board p -> is_Some (cell g p).
Proof. intros. by apply ndarray_get_on. Qed.

Lemma board_get_cell g r c v :
  cell g (r, c) = Some v -> board_get r c g = (g, inr v).
Proof. unfold cell, board_get. simpl. by intros ->. Qed.

Lemma board_set_on g p v :
  wf_game g -> on_board p ->
  exists g',
    board_set p.1 p.2 v g = (g', inr tt) /\ wf_game g' /\
    current_player g' = current_player g /\
    cell g' p = Some v /\
    forall q, on_board q -> q <> p -> cell g' q = cell g q.
Proof.
  intros Hwf Hp.
  destruct (ndarray_set_on (board g) p v Hwf Hp) as (b' & Hset & Hwf' & Hget & Hfr).
  exists (mkGame b' (current_player g)). unfold board_set. rewrite Hset.
  repeat split; try done; apply Hwf'.
Qed.

Lemma is_current_players_piece_eq piece g :
  _is_current_players_piece piece g = (g, inr (mine g piece)).
Proof.
  unfold _is_current_players_piece, mine, bind, get_player.
  by destruct (current_player g =? 1).
Qed.

Lemma is_opponent_piece_eq piece g :
  _is_opponent_piece piece g = (g, inr (theirs g piece)).
Proof.
  unfold _is_opponent_piece, theirs, bind, get_player.
  by destruct (current_player g =? 1).
Qed.

Lemma read_only_is_current_players_piece piece :
  read_only (_is_current_players_piece piece).
Proof. intros g. by rewrite is_current_players_piece_eq. Qed.

Lemma read_only_is_opponent_piece piece :
  read_only (_is_opponent_piece piece).
Proof. intros g. by rewrite is_opponent_piece_eq. Qed.

#[local] Hint Extern 1 (read_only (_is_current_players_piece _)) =>
  apply read_only_is_current_players_piece : ro.
#[local] Hint Extern 1 (read_only (_is_opponent_piece _)) =>
  apply read_only_is_opponent_piece : ro.

(** ** Simple moves of one piece *)

Lemma read_only_get_normal_moves r c : read_only (_get_normal_moves r c).
Proof.
  unfold _get_normal_moves. apply read_only_bind; [ro_auto |]. intros piece.
  apply read_only_for_each. intros moves [dr dc]. ro_auto.
Qed.

(** On a well-formed board the scan of the directions never reads outside
    the array; it returns the empty on-board neighbours, and nothing else. *)
Lemma get_normal_moves_spec g p piece :
  wf_game g -> cell g p = Some piece ->
  exists ms,
    _get_normal_moves p.1 p.2 g = (g, inr ms) /\
    forall q, In q ms <->
      exists d, In d (normal_directions piece) /\ q = shift p d /\
                on_board q /\ cell g q = Some 0.
Proof.
  intros Hwf Hpiece. destruct p as [r c]. unfold _get_normal_moves. simpl.
  rewrite (bind_ok _ _ g g piece) by by apply board_get_cell.
  match goal with |- context [for_each _ ?b _] => set (body := b) end.
  assert (forall ds acc, exists ms,
    for_each ds body acc g = (g, inr ms) /\
    forall q, In q ms <->
      In q acc \/
      exists d, In d ds /\ q = shift (r, c) d /\ on_board q /\ cell g q = Some 0)
    as Hloop.
  { induction ds as [| [dr dc] ds IH]; intros acc.
    - exists acc. split; [done |]. intros q. split; [auto |].
      intros [H | (d & [] & _)]; done.
    - rewrite for_each_cons.
      destruct (_is_valid_position (r + dr) (c + dc)) eqn:Hv.
      + apply valid_position_on_board in Hv.
        destruct (cell_on g _ Hwf Hv) as [v Hcell].
        rewrite (bind_ok _ _ g g
                   (if v =? 0 then acc ++ [(r + dr, c + dc)] else acc)).
        2:{ unfold body. apply valid_position_on_board in Hv. rewrite Hv.
            rewrite (bind_ok _ _ g g v) by by apply board_get_cell.
            by destruct (v =? 0). }
        destruct (IH (if v =? 0 then acc ++ [(r + dr, c + dc)] else acc))
          as (ms & -> & Hms).
        exists ms. split; [done |]. intros q. rewrite Hms. clear Hms IH.
        destruct (Z.eqb_spec v 0) as [-> | Hnz].
        * rewrite in_app_iff. simpl. split.
          -- intros [[H | [<- | []]] | (d & Hd & Hq)]; [by left | | ].
             ++ right. exists (dr, dc). auto.
             ++ right. exists d. tauto.
          -- intros [H | (d & [<- | Hd] & Hq)]; [tauto | | ].
             ++ destruct Hq as (-> & _). left. right. by left.
             ++ right. exists d. tauto.
        * split.
          -- intros [H | (d & Hd & Hq)]; [by left |]. right. exists d.
             simpl. tauto.
          -- intros [H | (d & [<- | Hd] & Hq)]; [by left | | ].
             ++ destruct Hq as (-> & _ & Hq). unfold shift in Hq. simpl in Hq.
                congruence.
             ++ right. exists d. tauto.
      + rewrite (bind_ok _ _ g g acc) by (unfold body; by rewrite Hv).
        destruct (IH acc) as (ms & -> & Hms).
        exists ms. split; [done |]. intros q. rewrite Hms. clear Hms IH.
        apply valid_position_off_board in Hv. split.
        * intros [H | (d & Hd & Hq)]; [by left |]. right. exists d.
          simpl. tauto.
        * intros [H | (d & [<- | Hd] & Hq)]; [by left | | ].
          -- destruct Hq as (-> & Hq & _). done.
          -- right. exists d. tauto. }
  destruct (Hloop (normal_directions piece) []) as (ms & -> & Hms).
  exists ms. split; [done |]. intros q. rewrite Hms. simpl. tauto.
Qed.

(** ** The capture search *)

Lemma capture_directions_two piece d :
  In d (capture_directions piece) ->
  (d.1 = 2 \/ d.1 = -2) /\ (d.2 = 2 \/ d.2 = -2).
Proof.
  unfold capture_directions.
  destruct (py_in piece [2; 4]); [| destruct (piece =? 1);
    [| destruct (piece =? 3)]]; simpl; intros H;
    repeat (destruct H as [<- | H]; [simpl; lia |]); done.
Qed.

Lemma jumped_on_board p d :
  (d.1 = 2 \/ d.1 = -2) /\ (d.2 = 2 \/ d.2 = -2) ->
  on_board p -> on_board (shift p d) -> on_board (jumped p d).
Proof.
  destruct p as [r c], d as [dx dy]. unfold on_board, shift, jumped. simpl.
  intros [[-> | ->] [-> | ->]]; change (2 / 2) with 1;
    change (-2 / 2) with (-1); lia.
Qed.

Lemma read_only_jump_admissible r c dx dy V :
  read_only (jump_admissible r c dx dy V).
Proof. unfold jump_admissible. ro_auto. Qed.

(** Whenever the test accepts a jump, the landing square reads as empty. *)
Lemma jump_admissible_true r c dx dy V g g' :
  jump_admissible r c dx dy V g = (g', inr true) ->
  g' = g /\ cell g (r + dx, c + dy) = Some 0.
Proof.
  intros H. split.
  { pose proof (read_only_jump_admissible r c dx dy V g) as Hro.
    rewrite H in Hro. done. }
  revert H. unfold jump_admissible.
  destruct (bool_decide _); [done |].
  destruct (_is_valid_position _ _); [| done]. simpl.
  unfold bind at 1, board_get at 1. unfold cell. simpl.
  destruct (ndarray_get (board g) (r + dx) (c + dy)) as [v |]; [| done].
  destruct (Z.eqb_spec v 0) as [-> | ?]; simpl; done.
Qed.

Lemma jump_admissible_spec g p d V :
  wf_game g -> on_board p ->
  (d.1 = 2 \/ d.1 = -2) /\ (d.2 = 2 \/ d.2 = -2) ->
  exists ok : bool,
    jump_admissible p.1 p.2 d.1 d.2 V g = (g, inr ok) /\
    (ok = true <-> (shift p d ∉ V) /\ can_jump g p d).
Proof.
  intros Hwf Hp Hd. unfold jump_admissible, can_jump.
  change (p.1 + d.1, p.2 + d.2) with (shift p d).
  change (p.1 + d.1 / 2) with (jumped p d).1.
  change (p.2 + d.2 / 2) with (jumped p d).2.
  case_bool_decide as Hin.
  { exists false. split; [done |]. split; [done | by intros [? _]]. }
  destruct (_is_valid_position (p.1 + d.1) (p.2 + d.2)) eqn:Hv; simpl.
  2:{ apply valid_position_off_board in Hv. exists false.
      split; [done |]. split; [done | by intros (_ & ? & _)]. }
  apply valid_position_on_board in Hv.
  destruct (cell_on g _ Hwf Hv) as [v Hcell].
  rewrite (bind_ok _ _ g g v) by by apply board_get_cell.
  destruct (Z.eqb_spec v 0) as [-> | Hnz]; simpl.
  2:{ exists false. split; [done |]. split; [done |].
      intros (_ & _ & Hc & _). unfold shift in Hc. congruence. }
  pose proof (jumped_on_board p d Hd Hp Hv) as Hj.
  destruct (cell_on g _ Hwf Hj) as [j Hjc].
  rewrite (bind_ok _ _ g g j).
  2:{ apply board_get_cell. exact Hjc. }
  rewrite is_opponent_piece_eq. exists (theirs g j). split; [done |].
  split.
  - intros Ht. split; [done |]. split; [done |]. split; [done |]. eauto.
  - intros (_ & _ & _ & j' & Hj' & Ht). congruence.
Qed.

Lemma read_only_find_capture_sequences fuel r c cur all V :
  read_only (_find_capture_sequences fuel r c cur all V).
Proof.
  revert r c cur all V.
  induction fuel as [| fuel IH]; intros r c cur all V; simpl.
  - ro_auto.
  - apply read_only_bind; [ro_auto |]. intros piece.
    apply read_only_bind.
    + apply read_only_for_each. intros [[found all'] V'] [dx dy].
      apply read_only_bind; [apply read_only_jump_admissible |].
      intros [|]; [| ro_auto].
      apply read_only_bind; [apply IH |]. intros [all'' V'']. ro_auto.
    + intros [[found all'] V']. ro_auto.
Qed.

(** A call on an empty square has no direction to try: it records the chain
    it was given, if there is one, and returns. *)
Lemma find_capture_sequences_landing fuel r c cur all V g :
  cell g (r, c) = Some 0 -> cur <> [] ->
  _find_capture_sequences (S fuel) r c cur all V g = (g, inr (all ++ [cur], V)).
Proof.
  intros Hcell Hcur. simpl.
  rewrite (bind_ok _ _ g g 0) by by apply board_get_cell.
  simpl. unfold bind, ret. simpl. by destruct cur.
Qed.

(** Two levels of recursion are all the search ever uses: the fuel of the
    model does not matter from 2 on, on any board whatsoever. *)
Lemma find_capture_sequences_fuel n m r c cur all V g :
  _find_capture_sequences (S (S n)) r c cur all V g =
  _find_capture_sequences (S (S m)) r c cur all V g.
Proof.
  remember (S n) as fn eqn:Hn. remember (S m) as fm eqn:Hm. simpl.
  apply bind_ext. intros piece g1. apply bind_cong, for_each_ext.
  intros [[found all'] V'] [dx dy] h. unfold bind.
  destruct (jump_admissible r c dx dy V' h) as [h' [e | [|]]] eqn:Hadm;
    [done | | done].
  apply jump_admissible_true in Hadm as [-> Hcell]. subst fn fm.
  rewrite !find_capture_sequences_landing; try done; by destruct cur.
Qed.

(** [visited.add(x)] followed, after the nested call, by [visited.remove(x)]. *)
Lemma visited_add_mem (V : gset pos) x : bool_decide (x ∈ V ∪ {[ x ]}) = true.
Proof. apply bool_decide_eq_true_2. set_solver. Qed.

Lemma visited_add_remove (V : gset pos) x : x ∉ V -> (V ∪ {[ x ]}) ∖ {[ x ]} = V.
Proof.
  intros Hx. apply set_eq. intros y.
  rewrite elem_of_difference, elem_of_union, elem_of_singleton.
  split; [tauto |]. intros Hy. split; [by left | congruence].
Qed.

(** What one call of the search on a square of the board does, with the
    chain [cur] so far: every accepted jump is recorded as [cur] extended by
    its landing square (the nested call, on an empty square, extends
    nothing), and [cur] itself is recorded when no jump is accepted and it
    is not empty.  The set [visited] is handed back as it was received. *)
Lemma find_capture_sequences_spec n g p piece cur all V :
  wf_game g -> on_board p -> cell g p = Some piece ->
  exists all',
    _find_capture_sequences (S (S n)) p.1 p.2 cur all V g = (g, inr (all', V)) /\
    forall s, In s all' <->
      In s all \/
      (exists d, In d (capture_directions piece) /\ (shift p d ∉ V) /\
                 can_jump g p d /\ s = cur ++ [shift p d]) \/
      (s = cur /\ cur <> [] /\
       ~ exists d, In d (capture_directions piece) /\ (shift p d ∉ V) /\
                   can_jump g p d).
Proof.
  intros Hwf Hp Hpiece. destruct p as [r c].
  remember (S n) as f eqn:Hf. simpl.
  rewrite (bind_ok _ _ g g piece) by by apply board_get_cell.
  match goal with |- context [for_each _ ?b _] => set (body := b) end.
  assert (forall ds,
    (forall d, In d ds -> (d.1 = 2 \/ d.1 = -2) /\ (d.2 = 2 \/ d.2 = -2)) ->
    forall found all0, exists (found' : bool) all',
      for_each ds body (found, all0, V) g = (g, inr (found', all', V)) /\
      (forall s, In s all' <->
         In s all0 \/
         exists d, In d ds /\ (shift (r, c) d ∉ V) /\ can_jump g (r, c) d /\
                   s = cur ++ [shift (r, c) d]) /\
      (found' = true <->
         found = true \/
         exists d, In d ds /\ (shift (r, c) d ∉ V) /\ can_jump g (r, c) d))
    as Hloop.
  { induction ds as [| d ds IH]; intros Hds found all0.
    - exists found, all0. split; [done |]. split; intros; split; auto.
      + intros [H | (d & [] & _)]; done.
      + intros [H | (d & [] & _)]; done.
    - rewrite for_each_cons.
      destruct (jump_admissible_spec g (r, c) d V Hwf Hp) as (ok & Hadm & Hok).
      { apply Hds. by left. }
      assert (forall d', In d' ds ->
                (d'.1 = 2 \/ d'.1 = -2) /\ (d'.2 = 2 \/ d'.2 = -2)) as Hds'.
      { intros d' Hd'. apply Hds. by right. }
      destruct ok.
      + destruct (proj1 Hok eq_refl) as [HnV Hjump].
        rewrite (bind_ok _ _ g g (true, all0 ++ [cur ++ [shift (r, c) d]], V)).
        2:{ unfold body. destruct d as [dx dy]. simpl in Hadm.
            rewrite (bind_ok _ _ g g true) by done.
            destruct Hjump as (_ & Hempty & _). subst f.
            rewrite (bind_ok _ _ g g
              (all0 ++ [cur ++ [shift (r, c) (dx, dy)]],
               V ∪ {[ shift (r, c) (dx, dy) ]})).
            2:{ apply find_capture_sequences_landing; [done |].
                by destruct cur. }
            unfold shift in *. simpl in *.
            rewrite visited_add_mem.
            unfold ret. by rewrite visited_add_remove. }
        destruct (IH Hds' true (all0 ++ [cur ++ [shift (r, c) d]]))
          as (found' & all' & -> & Hall & Hfound).
        exists found', all'. split; [done |]. split.
        * intros s. rewrite Hall, in_app_iff. simpl. split.
          -- intros [[H | [<- | []]] | (d' & Hd' & H)]; [by left | |].
             ++ right. exists d. auto.
             ++ right. exists d'. tauto.
          -- intros [H | (d' & [<- | Hd'] & H)]; [tauto | |].
             ++ destruct H as (_ & _ & ->). left. right. by left.
             ++ right. exists d'. tauto.
        * rewrite Hfound. split; [| tauto]. intros _. right. exists d.
          split; [by left | done].
      + assert (~ ((shift (r, c) d ∉ V) /\ can_jump g (r, c) d)) as Hno.
        { intros H. apply Hok in H. done. }
        rewrite (bind_ok _ _ g g (found, all0, V)).
        2:{ unfold body. destruct d as [dx dy]. simpl in Hadm.
            by rewrite (bind_ok _ _ g g false). }
        destruct (IH Hds' found all0) as (found' & all' & -> & Hall & Hfound).
        exists found', all'. split; [done |]. split.
        * intros s. rewrite Hall. split.
          -- intros [H | (d' & Hd' & H)]; [by left |]. right. exists d'.
             simpl. tauto.
          -- intros [H | (d' & [<- | Hd'] & H)]; [by left | tauto |].
             right. exists d'. tauto.
        * rewrite Hfound. split.
          -- intros [H | (d' & Hd' & H)]; [by left |]. right. exists d'.
             simpl. tauto.
          -- intros [H | (d' & [<- | Hd'] & H)]; [by left | tauto |].
             right. exists d'. tauto. }
  destruct (Hloop (capture_directions piece) (capture_directions_two piece)
              false all) as (found' & all' & Hrun & Hall & Hfound).
  rewrite (bind_ok _ _ g g (found', all', V)) by done.
  destruct found'; simpl.
  - exists all'. split; [done |]. intros s. rewrite Hall.
    assert (exists d, In d (capture_directions piece) /\
                      (shift (r, c) d ∉ V) /\ can_jump g (r, c) d) as Hex.
    { destruct (proj1 Hfound eq_refl) as [? | ?]; done. }
    split; [tauto |]. intros [? | [? | (_ & _ & Hn)]]; tauto.
  - assert (~ exists d, In d (capture_directions piece) /\
                        (shift (r, c) d ∉ V) /\ can_jump g (r, c) d) as Hnex.
    { intros Hex. assert (false = true) by (apply Hfound; by right). done. }
    destruct cur as [| x cur]; simpl.
    + exists all'. split; [done |]. intros s. rewrite Hall.
      split; [tauto |]. intros [? | [? | (_ & ? & _)]]; [tauto | | done].
      right. destruct H as (d & ? & ? & ? & ?). exists d. tauto.
    + exists (all' ++ [x :: cur]). split; [done |]. intros s.
      rewrite in_app_iff, Hall. simpl. split.
      * intros [[? | (d & ? & ? & ? & ?)] | [<- | []]]; [tauto | |].
        -- exfalso. apply Hnex. eauto.
        -- right. right. done.
      * intros [? | [(d & ? & ? & ? & ?) | (-> & _)]]; [tauto | |].
        -- exfalso. apply Hnex. eauto.
        -- right. by left.
Qed.

Lemma read_only_get_capture_moves r c : read_only (_get_capture_moves r c).
Proof.
  unfold _get_capture_moves.
  apply read_only_bind; [apply read_only_find_capture_sequences |].
  intros [captures V]. ro_auto.
Qed.

(** The capture chains of a piece: one single-jump chain for every jump the
    piece can make, and no longer chain. *)
Lemma get_capture_moves_spec g p piece :
  wf_game g -> on_board p -> cell g p = Some piece ->
  exists caps,
    _get_capture_moves p.1 p.2 g = (g, inr caps) /\
    forall s, In s caps <->
      exists d, In d (capture_directions piece) /\ can_jump g p d /\
                s = [shift p d].
Proof.
  intros Hwf Hp Hpiece. unfold _get_capture_moves, search_depth.
  destruct (find_capture_sequences_spec 63 g p piece [] [] ∅ Hwf Hp Hpiece)
    as (caps & Hrun & Hcaps).
  rewrite (bind_ok _ _ g g (caps, ∅)) by done.
  exists caps. split; [done |]. intros s. rewrite Hcaps. simpl. split.
  - intros [[] | [(d & ? & _ & ? & ?) | (_ & ? & _)]]; [| done]. eauto.
  - intros (d & ? & ? & ?). right. left. exists d.
    split; [done |]. split; [apply not_elem_of_empty | done].
Qed.

(** ** Enumeration of the legal moves *)

Lemma in_range lo hi x : In x (range lo hi) <-> lo <= x < hi.
Proof.
  unfold range. rewrite in_map_iff. split.
  - intros (k & <- & Hk). apply in_seq in Hk. lia.
  - intros H. exists (Z.to_nat (x - lo)). split; [lia |]. apply in_seq. lia.
Qed.

(** A loop whose body only reads: an invariant over the part of the list
    already handled is carried to the end, and the loop returns. *)
Lemma for_each_inv {A S : Type} (I : list A -> S -> Prop)
    (body : S -> A -> M S) g (xs : list A) :
  (forall seen x s, In x xs -> I seen s ->
     exists s', body s x g = (g, inr s') /\ I (seen ++ [x]) s') ->
  forall pre acc, I pre acc ->
  exists s', for_each xs body acc g = (g, inr s') /\ I (pre ++ xs) s'.
Proof.
  induction xs as [| x xs IH]; intros Hstep pre acc Hacc.
  - exists acc. by rewrite app_nil_r.
  - destruct (Hstep pre x acc) as (s1 & Hrun & Hs1); [by left | done |].
    rewrite for_each_cons, (bind_ok _ _ g g s1) by done.
    destruct (IH (fun seen y s Hy => Hstep seen y s (or_intror Hy))
                (pre ++ [x]) s1 Hs1) as (s' & Hrun' & Hs').
    exists s'. split; [done |]. by rewrite <- app_assoc in Hs'.
Qed.

Lemma read_only_get_valid_moves : read_only get_valid_moves.
Proof.
  unfold get_valid_moves. apply read_only_bind.
  - apply read_only_for_each. intros acc row.
    apply read_only_for_each. intros [mv cp] col.
    apply read_only_bind; [ro_auto |]. intros piece.
    apply read_only_bind; [ro_auto |]. intros [|]; [| ro_auto].
    apply read_only_bind; [apply read_only_get_capture_moves |].
    intros caps. apply read_only_if; [ro_auto |].
    apply read_only_bind; [apply read_only_get_normal_moves |]. ro_auto.
  - intros [mv cp]. ro_auto.
Qed.

(** The body of the inner loop of [get_valid_moves] on one square of the
    board: the captures of the piece of the side to move that stands there
    go to [capture_moves]; its steps go to [moves] when it has no capture. *)
Lemma square_moves_spec g r c mv cp :
  wf_game g -> on_board (r, c) ->
  exists mv' cp',
    (let* piece := board_get r c in
     let* mine := _is_current_players_piece piece in
     if mine : bool then
       let* piece_captures := _get_capture_moves r c in
       if truthy piece_captures then
         ret (mv, cp ++ map (fun captures => ((r, c), captures)) piece_captures)
       else
         let* piece_moves := _get_normal_moves r c in
         ret (mv ++ map (fun m => ((r, c), [m])) piece_moves, cp)
     else ret (mv, cp)) g = (g, inr (mv', cp')) /\
    (forall m, In m cp' <-> In m cp \/ (m.1 = (r, c) /\ is_jump_move g m)) /\
    (forall m, In m mv' <->
       In m mv \/
       (m.1 = (r, c) /\ is_step_move g m /\
        ~ exists s, is_jump_move g ((r, c), s))).
Proof.
  intros Hwf Hp. destruct (cell_on g _ Hwf Hp) as [piece Hpiece].
  rewrite (bind_ok _ _ g g piece) by by apply board_get_cell.
  rewrite (bind_ok _ _ g g (mine g piece)) by apply is_current_players_piece_eq.
  destruct (mine g piece) eqn:Hmine.
  - destruct (get_capture_moves_spec g (r, c) piece Hwf Hp Hpiece)
      as (caps & Hcaps_run & Hcaps).
    rewrite (bind_ok _ _ g g caps) by done.
    assert (forall s, is_jump_move g ((r, c), s) <-> In s caps) as Hjump.
    { intros s. rewrite Hcaps. unfold is_jump_move. simpl. split.
      - intros (_ & piece' & d & Hc & _ & Hd & Hj & ->).
        assert (piece' = piece) as -> by congruence. eauto.
      - intros (d & Hd & Hj & ->). split; [done |]. exists piece, d. auto. }
    destruct caps as [| s0 caps]; unfold truthy.
    + destruct (get_normal_moves_spec g (r, c) piece Hwf Hpiece)
        as (ms & Hms_run & Hms).
      rewrite (bind_ok _ _ g g ms) by done.
      do 2 eexists. split; [done |]. split.
      * intros m. split; [tauto |]. intros [? | [Hm Hj]]; [done |].
        destruct m as [s sq]. simpl in Hm. subst s.
        apply Hjump in Hj. done.
      * intros m. rewrite in_app_iff, in_map_iff. split.
        -- intros [? | (q & <- & Hq)]; [tauto |]. right. simpl.
           split; [done |]. split.
           ++ apply Hms in Hq as (d & Hd & -> & Hon & Hc).
              split; [done |]. exists piece, d. simpl. auto 10.
           ++ intros [s Hs]. apply Hjump in Hs. done.
        -- intros [? | (Hm & (_ & piece' & d & Hc & _ & Hd & Hon & He & Hs) & _)];
             [tauto |].
           right. destruct m as [s sq]. simpl in *. subst s sq.
           assert (piece' = piece) as -> by congruence.
           exists (shift (r, c) d). split; [done |]. apply Hms. eauto.
    + do 2 eexists. split; [done |]. split.
      * intros m. rewrite in_app_iff, in_map_iff. split.
        -- intros [? | (s & <- & Hs)]; [tauto |]. right. simpl.
           split; [done |]. by apply Hjump.
        -- intros [? | [Hm Hj]]; [tauto |]. right.
           destruct m as [s sq]. simpl in Hm. subst s. exists sq.
           split; [done |]. by apply Hjump.
      * intros m. split; [tauto |]. intros [? | (_ & _ & Hn)]; [done |].
        exfalso. apply Hn. exists s0. apply Hjump. by left.
  - do 2 eexists. split; [done |]. split.
    + intros [s sq]. split; [tauto |]. intros [? | [Hm Hj]]; [done |].
      destruct Hj as (_ & piece' & d & Hc & Hmine' & _).
      simpl in *. subst s. congruence.
    + intros [s sq]. split; [tauto |]. intros [? | (Hm & Hj & _)]; [done |].
      destruct Hj as (_ & piece' & d & Hc & Hmine' & _).
      simpl in *. subst s. congruence.
Qed.

#[local] Opaque range.

(** [get_valid_moves] on a well-formed board returns, without touching the
    engine: the one-jump captures of the side to move when it has any, and
    its one-square steps otherwise. *)
Lemma get_valid_moves_spec g :
  wf_game g ->
  exists ms,
    get_valid_moves g = (g, inr ms) /\
    (((exists m, is_jump_move g m) /\ forall m, In m ms <-> is_jump_move g m) \/
     ((~ exists m, is_jump_move g m) /\ forall m, In m ms <-> is_step_move g m)).
Proof.
  intros Hwf. unfold get_valid_moves.
  pose (Isq := fun (sq : pos -> Prop) (s : list move * list move) =>
    (forall m, In m s.2 <-> sq m.1 /\ is_jump_move g m) /\
    (forall m, In m s.1 <->
       sq m.1 /\ is_step_move g m /\ ~ exists s', is_jump_move g (m.1, s'))).
  match goal with |- context [for_each _ ?b _] => set (outer := b) end.
  destruct (for_each_inv (fun rows s => Isq (fun p => In p.1 rows) s)
              outer g (range 0 8)) with (pre := @nil Z) (acc := (@nil move, @nil move))
    as ([mv cp] & Hrun & Hcp & Hmv).
  { intros rows r [mv cp] Hr [Hcp Hmv]. apply in_range in Hr. unfold outer.
    destruct (for_each_inv
      (fun cols s => Isq (fun p => In p.1 rows \/ (p.1 = r /\ In p.2 cols)) s)
      (fun '(moves, capture_moves) col =>
         let* piece := board_get r col in
         let* mine := _is_current_players_piece piece in
         if mine : bool then
           let* piece_captures := _get_capture_moves r col in
           if truthy piece_captures then
             ret (moves,
                  capture_moves ++
                    map (fun captures => ((r, col), captures)) piece_captures)
           else
             let* piece_moves := _get_normal_moves r col in
             ret (moves ++ map (fun m => ((r, col), [m])) piece_moves,
                  capture_moves)
         else ret (moves, capture_moves))
      g (range 0 8)) with (pre := @nil Z) (acc := (mv, cp))
      as ([mv' cp'] & Hrun' & Hcp' & Hmv').
    - intros cols c [mv1 cp1] Hc [Hcp1 Hmv1]. apply in_range in Hc.
      destruct (square_moves_spec g r c mv1 cp1 Hwf) as (mv2 & cp2 & Hsq & Hcp2 & Hmv2).
      { split; simpl; lia. }
      exists (mv2, cp2). split; [exact Hsq |]. split; simpl in *.
      + intros m. rewrite Hcp2, Hcp1, in_app_iff. simpl.
        destruct m as [[mr mc] sq]. simpl. split.
        * intros [[? ?] | [? ?]]; [tauto |]. simplify_eq. tauto.
        * intros [[? | [? [? | [? | []]]]] ?]; subst; tauto.
      + intros m. rewrite Hmv2, Hmv1, in_app_iff. simpl.
        destruct m as [[mr mc] sq]. simpl. split.
        * intros [[? ?] | [? ?]]; [tauto |]. simplify_eq. tauto.
        * intros [[? | [? [? | [? | []]]]] ?]; subst; tauto.
    - split; simpl.
      + intros m. rewrite Hcp. tauto.
      + intros m. rewrite Hmv. tauto.
    - exists (mv', cp'). split; [exact Hrun' |]. simpl in *. split; simpl.
      + intros m. rewrite Hcp', in_app_iff. simpl.
        assert (is_jump_move g m -> In m.1.2 (range 0 8)) as Hcol.
        { intros [[_ ?] _]. by apply in_range. }
        intuition congruence.
      + intros m. rewrite Hmv', in_app_iff. simpl.
        assert (is_step_move g m -> In m.1.2 (range 0 8)) as Hcol.
        { intros [[_ ?] _]. by apply in_range. }
        intuition congruence. }
  { split; simpl; intros m; tauto. }
  rewrite (bind_ok _ _ g g (mv, cp)) by done. simpl in Hcp, Hmv.
  assert (forall m, In m cp <-> is_jump_move g m) as Hcp_all.
  { intros m. rewrite Hcp. split; [tauto |]. intros Hj. split; [| done].
    destruct Hj as [[? _] _]. by apply in_range. }
  destruct cp as [| m0 cp]; unfold truthy.
  - exists mv. split; [done |]. right.
    assert (~ exists m, is_jump_move g m) as Hno.
    { intros [m Hm]. apply Hcp_all in Hm. done. }
    split; [done |].
    intros m. rewrite Hmv. split; [tauto |]. intros Hs.
    split; [| split; [done |]].
    + destruct Hs as [[? _] _]. by apply in_range.
    + intros [s' Hs']. apply Hno. eauto.
  - exists (m0 :: cp). split; [done |]. left. split; [| done].
    exists m0. apply Hcp_all. by left.
Qed.

#[local] Transparent range.

(** ** Applying a move *)

Lemma board_set_poke g p v :
  wf_game g -> on_board p -> board_set p.1 p.2 v g = (poke g p v, inr tt).
Proof.
  intros Hwf Hp. unfold poke.
  destruct (board_set_on g p v Hwf Hp) as (g' & -> & _). done.
Qed.

Lemma poke_spec g p v :
  wf_game g -> on_board p ->
  wf_game (poke g p v) /\
  current_player (poke g p v) = current_player g /\
  cell (poke g p v) p = Some v /\
  forall q, on_board q -> q <> p -> cell (poke g p v) q = cell g q.
Proof.
  intros Hwf Hp. unfold poke.
  destruct (board_set_on g p v Hwf Hp) as (g' & -> & H). exact H.
Qed.

Lemma midpoint_on_board p q : on_board p -> on_board q -> on_board (midpoint p q).
Proof.
  unfold on_board, midpoint. simpl. intros [? ?] [? ?].
  Z.to_euclidean_division_equations. lia.
Qed.

Lemma midpoint_jumped p d :
  (d.1 = 2 \/ d.1 = -2) /\ (d.2 = 2 \/ d.2 = -2) ->
  midpoint p (shift p d) = jumped p d.
Proof.
  destruct p as [r c], d as [dx dy]. unfold midpoint, shift, jumped. simpl.
  intros [[-> | ->] [-> | ->]]; change (2 / 2) with 1;
    change (-2 / 2) with (-1); f_equal;
    Z.to_euclidean_division_equations; lia.
Qed.

Lemma make_move_step_spec last g row col piece i d :
  wf_game g -> on_board (row, col) -> on_board d ->
  exists g',
    make_move_step last (row, col, piece) (i, d) g =
      (g', inr (d.1, d.2, if i =? last then kinged piece d.1 else piece)) /\
    wf_game g' /\ current_player g' = current_player g /\
    (i = last -> cell g' d = Some (kinged piece d.1)).
Proof.
  intros Hwf Hp Hd. destruct d as [nr nc]. unfold make_move_step. simpl.
  pose proof (midpoint_on_board _ _ Hp Hd) as Hmid.
  set (g1 := if Z.abs (nr - row) =? 2
             then poke g (midpoint (row, col) (nr, nc)) 0 else g).
  assert (wf_game g1 /\ current_player g1 = current_player g) as [Hwf1 Hcp1].
  { unfold g1. destruct (Z.abs (nr - row) =? 2); [| done].
    destruct (poke_spec g _ 0 Hwf Hmid) as (? & ? & _). done. }
  rewrite (bind_ok _ _ g g1 tt).
  2:{ unfold g1. destruct (Z.abs (nr - row) =? 2); [| done].
      apply (board_set_poke g (midpoint (row, col) (nr, nc)) 0 Hwf Hmid). }
  destruct (Z.eqb_spec i last) as [-> | Hne].
  - exists (poke g1 (nr, nc) (kinged piece nr)).
    rewrite (bind_ok _ _ g1 (poke g1 (nr, nc) (kinged piece nr)) (kinged piece nr)).
    2:{ rewrite (bind_ok _ _ g1 (poke g1 (nr, nc) (kinged piece nr)) tt); [done |].
        apply (board_set_poke g1 (nr, nc) _ Hwf1 Hd). }
    destruct (poke_spec g1 (nr, nc) (kinged piece nr) Hwf1 Hd) as (? & ? & ? & _).
    split; [done |]. split; [done |]. split; [congruence | done].
  - exists g1. rewrite (bind_ok _ _ g1 g1 piece) by done. done.
Qed.

Lemma enumerate_from_app {A : Type} i (xs ys : list A) :
  enumerate_from i (xs ++ ys) =
  enumerate_from i xs ++ enumerate_from (i + Z.of_nat (length xs)) ys.
Proof.
  revert i. induction xs as [| x xs IH]; intros i; simpl.
  - f_equal. lia.
  - rewrite IH. do 3 f_equal. lia.
Qed.

Lemma last_cons {A : Type} (x a : A) (l : list A) :
  List.last (x :: l) a = List.last l x.
Proof.
  revert x a. induction l as [| y l IH]; intros x a; [done |].
  change (List.last (x :: y :: l) a) with (List.last (y :: l) a).
  by rewrite (IH y a), (IH y x).
Qed.

(** The steps before the last one only clear jumped squares: they succeed on
    positions of the board and leave [piece] as it is. *)
Lemma make_move_loop_prefix last ms : forall g row col piece i,
  wf_game g -> on_board (row, col) -> Forall on_board ms ->
  i + Z.of_nat (length ms) <= last ->
  exists g',
    for_each (enumerate_from i ms) (make_move_step last) (row, col, piece) g =
      (g', inr ((List.last ms (row, col)).1, (List.last ms (row, col)).2, piece)) /\
    wf_game g' /\ current_player g' = current_player g.
Proof.
  induction ms as [| d ms IH]; intros g row col piece i Hwf Hp Hms Hi.
  - exists g. done.
  - apply Forall_cons in Hms as [Hd Hms].
    destruct (make_move_step_spec last g row col piece i d Hwf Hp Hd)
      as (g1 & Hrun & Hwf1 & Hcp1 & _).
    simpl enumerate_from. rewrite for_each_cons.
    rewrite (bind_ok _ _ g g1 (d.1, d.2, piece)).
    2:{ rewrite Hrun. destruct (Z.eqb_spec i last); [| done].
        simpl in Hi. lia. }
    destruct (IH g1 d.1 d.2 piece (i + 1)) as (g' & Hrun' & Hwf' & Hcp');
      [done | by destruct d | done | simpl in Hi; lia |].
    exists g'. split; [| split; [done | congruence]].
    rewrite Hrun', (last_cons d (row, col)). by destruct d.
Qed.

(** [make_move] never checks the move it is given: on positions of the
    board it goes through, whatever the move, and flips the side to move. *)
Lemma make_move_total g s ms :
  wf_game g -> on_board s -> Forall on_board ms ->
  exists g',
    make_move s ms g = (g', inr tt) /\ wf_game g' /\
    current_player g' = - current_player g /\
    forall piece seq d,
      cell g s = Some piece -> ms = seq ++ [d] ->
      cell g' d = Some (kinged piece d.1).
Proof.
  intros Hwf Hs Hms. destruct s as [row col]. unfold make_move.
  destruct (cell_on g _ Hwf Hs) as [piece Hpiece].
  rewrite (bind_ok _ _ g g piece) by by apply board_get_cell.
  rewrite (bind_ok _ _ g (poke g (row, col) 0) tt)
    by apply (board_set_poke g (row, col) 0 Hwf Hs).
  destruct (poke_spec g (row, col) 0 Hwf Hs) as (Hwf1 & Hcp1 & _).
  destruct ms as [| d0 ms0] using rev_ind.
  - simpl for_each. rewrite (bind_ok _ _ _ (poke g (row, col) 0) (row, col, piece)) by done.
    unfold bind, get_player, set_player. simpl.
    eexists. split; [done |]. split; [done |]. split; [simpl; lia |].
    intros ? seq d _ Hnil. by destruct seq.
  - clear IHms0. apply Forall_app in Hms as [Hms0 Hd0].
    apply Forall_cons in Hd0 as [Hd0 _].
    rewrite length_app. simpl length.
    replace (Z.of_nat (length ms0 + 1) - 1) with (Z.of_nat (length ms0)) by lia.
    destruct (make_move_loop_prefix (Z.of_nat (length ms0)) ms0
                (poke g (row, col) 0) row col piece 0)
      as (g2 & Hrun2 & Hwf2 & Hcp2); [done | done | done | lia |].
    set (p2 := List.last ms0 (row, col)) in *.
    assert (on_board p2) as Hp2.
    { unfold p2. clear -Hs Hms0. revert Hms0.
      induction ms0 as [| x [| y l] IH]; intros H; [done | |].
      - by apply Forall_cons in H as [? _].
      - apply Forall_cons in H as [_ H]. by apply IH. }
    destruct (make_move_step_spec (Z.of_nat (length ms0)) g2 p2.1 p2.2 piece
                (Z.of_nat (length ms0)) d0 Hwf2)
      as (g3 & Hrun3 & Hwf3 & Hcp3 & Hcell3); [by destruct p2 | done |].
    rewrite Z.eqb_refl in Hrun3.
    rewrite (bind_ok _ _ _ g3 (d0.1, d0.2, kinged piece d0.1)).
    2:{ rewrite enumerate_from_app, for_each_app.
        rewrite (bind_ok _ _ _ g2 (p2.1, p2.2, piece)) by done.
        simpl enumerate_from. rewrite for_each_cons.
        rewrite (bind_ok _ _ g2 g3 (d0.1, d0.2, kinged piece d0.1)); [done |].
        rewrite <- Hrun3. f_equal. }
    unfold bind, get_player, set_player. simpl.
    eexists. split; [done |]. split; [done |]. split; [simpl; lia |].
    intros piece' seq d Hpiece' Heq.
    apply app_inj_tail in Heq as [_ <-].
    assert (piece' = piece) as -> by congruence.
    by apply Hcell3.
Qed.

(** A one-destination move spelled out: the squares it writes, in order. *)
Lemma make_move_single g s d piece :
  wf_game g -> on_board s -> on_board d -> cell g s = Some piece ->
  let g1 := poke g s 0 in
  let g2 := if Z.abs (d.1 - s.1) =? 2 then poke g1 (midpoint s d) 0 else g1 in
  let g3 := poke g2 d (kinged piece d.1) in
  make_move s [d] g = (mkGame (board g3) (current_player g * -1), inr tt) /\
  wf_game g2 /\ current_player g3 = current_player g.
Proof.
  intros Hwf Hs Hd Hpiece g1 g2 g3. destruct s as [row col], d as [nr nc].
  pose proof (midpoint_on_board _ _ Hs Hd) as Hmid.
  destruct (poke_spec g (row, col) 0 Hwf Hs) as (Hwf1 & Hcp1 & _).
  fold g1 in Hwf1, Hcp1.
  assert (wf_game g2 /\ current_player g2 = current_player g1) as [Hwf2 Hcp2].
  { unfold g2. destruct (Z.abs _ =? 2); [| done].
    destruct (poke_spec g1 _ 0 Hwf1 Hmid) as (? & ? & _). done. }
  destruct (poke_spec g2 (nr, nc) (kinged piece nr) Hwf2 Hd) as (Hwf3 & Hcp3 & _).
  fold g3 in Hwf3, Hcp3.
  assert (current_player g3 = current_player g) as Hcp.
  { exact (eq_trans Hcp3 (eq_trans Hcp2 Hcp1)). }
  split; [| split; [done | exact Hcp]].
  unfold make_move.
  rewrite (bind_ok _ _ g g piece) by by apply board_get_cell.
  rewrite (bind_ok _ _ g g1 tt) by apply (board_set_poke g (row, col) 0 Hwf Hs).
  rewrite (bind_ok _ _ g1 g3 (nr, nc, kinged piece nr)).
  2:{ simpl enumerate_from. rewrite for_each_cons.
      rewrite (bind_ok _ _ g1 g3 (nr, nc, kinged piece nr)); [done |].
      unfold make_move_step. simpl.
      rewrite (bind_ok _ _ g1 g2 tt).
      2:{ unfold g2. simpl. destruct (Z.abs (nr - row) =? 2); [| done].
          apply (board_set_poke g1 (midpoint (row, col) (nr, nc)) 0 Hwf1 Hmid). }
      rewrite (bind_ok _ _ g2 g3 (kinged piece nr)); [done |].
      rewrite (bind_ok _ _ g2 g3 tt); [done |].
      apply (board_set_poke g2 (nr, nc) _ Hwf2 Hd). }
  unfold bind, get_player, set_player. cbn [fst snd]. by rewrite Hcp.
Qed.

(** ** Counting pieces *)

Lemma in_squares p : In p squares <-> on_board p.
Proof.
  destruct p as [r c]. unfold squares, on_board.
  pose proof (in_prod_iff (range 0 8) (range 0 8) r c) as H.
  rewrite !in_range in H. exact H.
Qed.

Lemma NoDup_squares : NoDup squares.
Proof. apply (bool_decide_unpack _). by vm_compute. Qed.

Lemma count_pointwise (f f' : pos -> bool) (l : list pos) p :
  NoDup l -> In p l -> (forall q, In q l -> q <> p -> f' q = f q) ->
  (length (List.filter f' l) + Nat.b2n (f p) =
   length (List.filter f l) + Nat.b2n (f' p))%nat.
Proof.
  assert (forall l', ~ In p l' -> (forall q, In q l' -> q <> p -> f' q = f q) ->
                     List.filter f' l' = List.filter f l') as Hsame.
  { induction l' as [| x l' IH]; intros Hp Hf; [done |]. simpl.
    rewrite Hf, IH; [done | | | by left |].
    - intros ?. apply Hp. by right.
    - intros q ? ?. apply Hf; [by right | done].
    - intros ->. apply Hp. by left. }
  induction l as [| x l IH]; intros Hnd Hin Hf; [done |].
  destruct Hin as [-> | Hin].
  - apply NoDup_cons in Hnd as [Hx Hnd]. simpl.
    rewrite (Hsame l).
    + destruct (f p), (f' p); simpl; lia.
    + by rewrite <- list_elem_of_In.
    + intros q ? ?. apply Hf; [by right | done].
  - apply NoDup_cons in Hnd as [Hx Hnd]. simpl.
    assert (x <> p) as Hxp.
    { intros ->. apply Hx. by rewrite list_elem_of_In. }
    rewrite Hf by (by left || done).
    specialize (IH Hnd Hin (fun q Hq => Hf q (or_intror Hq))).
    destruct (f x); simpl; lia.
Qed.

Lemma occupied_cell g p v : cell g p = Some v -> occupied g p = negb (v =? 0).
Proof. unfold occupied. by intros ->. Qed.

(** The count looks at the board only, not at the side to move. *)
Lemma count_pieces_board g h : board g = board h -> count_pieces g = count_pieces h.
Proof.
  intros Hb. unfold count_pieces. f_equal. apply filter_ext. intros p.
  unfold occupied, cell. by rewrite Hb.
Qed.

(** One assignment changes the count by what it overwrites and writes. *)
Lemma count_poke g p v :
  wf_game g -> on_board p ->
  (count_pieces (poke g p v) + Nat.b2n (occupied g p) =
   count_pieces g + Nat.b2n (negb (v =? 0)%Z))%nat.
Proof.
  intros Hwf Hp. destruct (poke_spec g p v Hwf Hp) as (_ & _ & Hc & Hfr).
  unfold count_pieces.
  rewrite (count_pointwise (occupied g) (occupied (poke g p v)) squares p).
  - by rewrite (occupied_cell _ _ _ Hc).
  - apply NoDup_squares.
  - by apply in_squares.
  - intros q Hq Hne. unfold occupied. rewrite Hfr; [done | | done].
    by apply in_squares.
Qed.

(** ** What a legal move does to the board *)

Lemma same_parity a b k : a = b + k * 2 -> a mod 2 = b mod 2.
Proof. intros ->. apply Z_mod_plus_full. Qed.

Lemma normal_directions_one piece d :
  In d (normal_directions piece) ->
  (d.1 = 1 \/ d.1 = -1) /\ (d.2 = 1 \/ d.2 = -1).
Proof.
  unfold normal_directions.
  destruct (py_in piece [1; 2]), (py_in piece [3; 4]), (py_in piece [2; 4]),
    (piece =? 2); simpl; intros H;
    repeat (destruct H as [<- | H]; [simpl; lia |]); done.
Qed.

Lemma mine_nonzero g piece : mine g piece = true -> piece <> 0.
Proof.
  unfold mine, py_in. simpl. intros H ->.
  by destruct (current_player g =? 1).
Qed.

Lemma theirs_nonzero g piece : theirs g piece = true -> piece <> 0.
Proof.
  unfold theirs, py_in. simpl. intros H ->.
  by destruct (current_player g =? 1).
Qed.

Lemma kinged_nonzero piece row : piece <> 0 -> kinged piece row <> 0.
Proof.
  unfold kinged. intros H.
  destruct ((piece =? 1) && (row =? 7)); [done |].
  by destruct ((piece =? 3) && (row =? 0)).
Qed.

Lemma step_move_applies g m :
  wf_game g -> is_step_move g m -> exists g', applies g m g'.
Proof.
  intros Hwf (Hs & piece & dd & Hpiece & Hmine & Hdd & Hd & Hempty & Hm2).
  destruct m as [s seq]. simpl in *. subst seq.
  apply normal_directions_one in Hdd.
  remember (shift s dd) as d eqn:Hdeq.
  assert (d.1 = s.1 + dd.1 /\ d.2 = s.2 + dd.2) as [Hd1 Hd2] by by subst d.
  clear Hdeq.
  assert ((Z.abs (d.1 - s.1) =? 2) = false) as Habs by lia.
  assert (s <> d) as Hsd by (intros ->; lia).
  destruct (make_move_single g s d piece Hwf Hs Hd Hpiece) as (Hrun & _ & Hcp).
  rewrite Habs in Hrun, Hcp.
  destruct (poke_spec g s 0 Hwf Hs) as (Hwf1 & _ & Hc1 & Hfr1).
  destruct (poke_spec (poke g s 0) d (kinged piece d.1) Hwf1 Hd)
    as (Hwf3 & _ & Hc3 & Hfr3).
  pose proof (count_poke g s 0 Hwf Hs) as Hn1.
  pose proof (count_poke (poke g s 0) d (kinged piece d.1) Hwf1 Hd) as Hn3.
  eexists. exists piece, d. cbn [fst snd capture_midpoints]. rewrite Habs.
  cbn [app length In].
  split; [done |]. split; [done |]. split; [done |]. split; [done |].
  split; [done |]. split; [done |]. split.
  { rewrite Hd1, Hd2. destruct Hdd as [[-> | ->] [-> | ->]];
      [apply (same_parity _ _ 1) | apply (same_parity _ _ 0)
      | apply (same_parity _ _ 0) | apply (same_parity _ _ (-1))]; lia. }
  split; [exact Hrun |]. split; [done |]. split; [simpl; lia |]. split.
  { unfold cell at 1. simpl. change (cell (poke (poke g s 0) d (kinged piece d.1)) s = Some 0).
    by rewrite Hfr3. }
  split; [exact Hc3 |]. split; [done |]. split.
  { intros q Hq Hqs Hqd _.
    change (cell (poke (poke g s 0) d (kinged piece d.1)) q = cell g q).
    rewrite Hfr3, Hfr1; done. }
  rewrite (count_pieces_board _ (poke (poke g s 0) d (kinged piece d.1)))
    by reflexivity.
  rewrite (occupied_cell _ _ _ Hpiece) in Hn1.
  assert (cell (poke g s 0) d = Some 0) as Hcd by (rewrite Hfr1; done).
  rewrite (occupied_cell _ _ _ Hcd) in Hn3.
  apply mine_nonzero in Hmine.
  pose proof (kinged_nonzero piece d.1 Hmine) as Hk.
  apply Z.eqb_neq in Hmine, Hk. rewrite Hmine in Hn1. rewrite Hk in Hn3.
  change (0 =? 0) with true in Hn1, Hn3.
  cbn [Nat.b2n negb length] in Hn1, Hn3 |- *. lia.
Qed.

Lemma jump_move_applies g m :
  wf_game g -> is_jump_move g m -> exists g', applies g m g'.
Proof.
  intros Hwf (Hs & piece & dd & Hpiece & Hmine & Hdd & Hjump & Hm2).
  destruct m as [s seq]. simpl in *. subst seq.
  apply capture_directions_two in Hdd.
  destruct Hjump as (Hd & Hempty & j & Hj & Htheirs).
  pose proof (jumped_on_board s dd Hdd Hs Hd) as Hmid.
  rewrite <- (midpoint_jumped s dd Hdd) in Hj, Hmid.
  assert ((jumped s dd).1 = s.1 + dd.1 / 2 /\
          (jumped s dd).2 = s.2 + dd.2 / 2) as [Hm1 Hm2] by done.
  rewrite <- (midpoint_jumped s dd Hdd) in Hm1, Hm2.
  remember (shift s dd) as d eqn:Hdeq.
  assert (d.1 = s.1 + dd.1 /\ d.2 = s.2 + dd.2) as [Hd1 Hd2] by by subst d.
  clear Hdeq. remember (midpoint s d) as mid eqn:Hmideq.
  assert ((Z.abs (d.1 - s.1) =? 2) = true) as Habs by lia.
  assert (s <> d) as Hsd by (intros ->; lia).
  assert (mid <> s) as Hms.
  { intros ->. destruct Hdd as [[Hx | Hx] _]; rewrite Hx in Hm1;
      [change (2 / 2) with 1 in Hm1 | change (-2 / 2) with (-1) in Hm1]; lia. }
  assert (mid <> d) as Hmd.
  { intros ->. destruct Hdd as [[Hx | Hx] _]; rewrite Hx in Hm1;
      [change (2 / 2) with 1 in Hm1 | change (-2 / 2) with (-1) in Hm1]; lia. }
  destruct (make_move_single g s d piece Hwf Hs Hd Hpiece) as (Hrun & _ & Hcp).
  rewrite Habs, <- Hmideq in Hrun, Hcp.
  destruct (poke_spec g s 0 Hwf Hs) as (Hwf1 & _ & Hc1 & Hfr1).
  destruct (poke_spec (poke g s 0) mid 0 Hwf1 Hmid) as (Hwf2 & _ & Hc2 & Hfr2).
  destruct (poke_spec (poke (poke g s 0) mid 0) d (kinged piece d.1) Hwf2 Hd)
    as (Hwf3 & _ & Hc3 & Hfr3).
  pose proof (count_poke g s 0 Hwf Hs) as Hn1.
  pose proof (count_poke (poke g s 0) mid 0 Hwf1 Hmid) as Hn2.
  pose proof (count_poke (poke (poke g s 0) mid 0) d (kinged piece d.1) Hwf2 Hd)
    as Hn3.
  set (g3 := poke (poke (poke g s 0) mid 0) d (kinged piece d.1)) in *.
  exists (mkGame (board g3) (current_player g * -1)), piece, d.
  unfold applies. cbn [fst snd capture_midpoints]. rewrite Habs, <- Hmideq.
  cbn [app length In].
  split; [done |]. split; [done |]. split; [done |]. split; [done |].
  split; [done |]. split; [done |]. split.
  { rewrite Hd1, Hd2. destruct Hdd as [[-> | ->] [-> | ->]];
      [apply (same_parity _ _ 2) | apply (same_parity _ _ 0)
      | apply (same_parity _ _ 0) | apply (same_parity _ _ (-2))]; lia. }
  split; [exact Hrun |]. split; [exact Hwf3 |].
  split; [cbn [current_player]; lia |]. split.
  { change (cell g3 s = Some 0). unfold g3.
    rewrite Hfr3, Hfr2; done. }
  split; [exact Hc3 |]. split.
  { intros q [<- | []]. split; [done |]. split; [| eauto].
    change (cell g3 mid = Some 0). unfold g3. rewrite Hfr3; done. }
  split.
  { intros q Hq Hqs Hqd Hqm. change (cell g3 q = cell g q). unfold g3.
    rewrite Hfr3, Hfr2, Hfr1; try done. intros ->. apply Hqm. by left. }
  rewrite (count_pieces_board _ g3) by reflexivity.
  rewrite (occupied_cell _ _ _ Hpiece) in Hn1.
  assert (cell (poke g s 0) mid = Some j) as Hcm by (rewrite Hfr1; done).
  rewrite (occupied_cell _ _ _ Hcm) in Hn2.
  assert (cell (poke (poke g s 0) mid 0) d = Some 0) as Hcd.
  { rewrite Hfr2, Hfr1; done. }
  rewrite (occupied_cell _ _ _ Hcd) in Hn3.
  apply mine_nonzero in Hmine. apply theirs_nonzero in Htheirs.
  pose proof (kinged_nonzero piece d.1 Hmine) as Hk.
  apply Z.eqb_neq in Hmine, Htheirs, Hk.
  rewrite Hmine in Hn1. rewrite Htheirs in Hn2. rewrite Hk in Hn3.
  change (0 =? 0) with true in Hn1, Hn2, Hn3.
  cbn [Nat.b2n negb length] in Hn1, Hn2, Hn3 |- *. lia.
Qed.

(** Every move [get_valid_moves] returns is a one-jump capture or a
    one-square step, and [make_move] applies it as [applies] says. *)
Lemma valid_move_applies g ms m :
  wf_game g -> get_valid_moves g = (g, inr ms) -> In m ms ->
  exists g', applies g m g'.
Proof.
  intros Hwf Hrun Hin.
  destruct (get_valid_moves_spec g Hwf) as (ms' & Hrun' & Hshape).
  assert (ms' = ms) as -> by congruence.
  destruct Hshape as [[_ Hj] | [_ Hs]].
  - apply jump_move_applies; [done |]. by apply Hj.
  - apply step_move_applies; [done |]. by apply Hs.
Qed.

Lemma capture_steps_midpoints p seq :
  capture_steps p seq = length (capture_midpoints p seq).
Proof.
  revert p. induction seq as [| q seq IH]; intros p; [done |]. simpl.
  rewrite length_app, IH. by destruct (Z.abs (q.1 - p.1) =? 2).
Qed.

Lemma wf_board_concrete (b : list (list Z)) :
  bool_decide (length b = 8%nat /\ Forall (fun line => length line = 8%nat) b) = true ->
  wf_board b.
Proof. apply bool_decide_eq_true_1. Qed.

Lemma new_game_init :
  _initialize_board (mkGame zeros_8x8 1) = (new_game, inr tt).
Proof. by vm_compute. Qed.

Lemma wf_new_game : wf_game new_game.
Proof. apply wf_board_concrete. by vm_compute. Qed.

Lemma wf_double_jump_position : wf_game double_jump_position.
Proof. apply wf_board_concrete. by vm_compute. Qed.

Lemma wf_king_double_jump_position : wf_game king_double_jump_position.
Proof. apply wf_board_concrete. by vm_compute. Qed.

Lemma wf_promotion_position : wf_game promotion_position.
Proof. apply wf_board_concrete. by vm_compute. Qed.

Lemma mine_cases g piece :
  mine g piece = true -> piece = 1 \/ piece = 2 \/ piece = 3 \/ piece = 4.
Proof.
  unfold mine, py_in. simpl. destruct (current_player g =? 1); lia.
Qed.

Lemma cell_poke g p v q :
  wf_game g -> on_board p -> on_board q ->
  cell (poke g p v) q = if decide (q = p) then Some v else cell g q.
Proof.
  intros Hwf Hp Hq. destruct (poke_spec g p v Hwf Hp) as (_ & _ & Hc & Hfr).
  case_decide; [by subst | by apply Hfr].
Qed.

Lemma cell_poke_ne g p v q :
  wf_game g -> on_board p -> on_board q -> q <> p ->
  cell (poke g p v) q = cell g q.
Proof. intros Hwf Hp Hq Hne. rewrite cell_poke by done. by rewrite decide_False. Qed.

Lemma cell_poke_eq g p v :
  wf_game g -> on_board p -> cell (poke g p v) p = Some v.
Proof. intros Hwf Hp. rewrite cell_poke by done. by rewrite decide_True. Qed.

Lemma cell_mkGame g player p : cell (mkGame (board g) player) p = cell g p.
Proof. unfold cell. done. Qed.

Lemma wf_poke g p v : wf_game g -> on_board p -> wf_game (poke g p v).
Proof. intros Hwf Hp. by destruct (poke_spec g p v Hwf Hp). Qed.

Lemma dark_only_new_game : dark_only new_game.
Proof.
  assert (Forall (fun p : pos => (p.1 + p.2) mod 2 = 0 -> cell new_game p = Some 0)
            squares) as Hall.
  { apply (bool_decide_unpack _). by vm_compute. }
  intros p Hp. apply in_squares in Hp.
  rewrite List.Forall_forall in Hall. by apply Hall.
Qed.

Ltac on_board_concrete := split; simpl; lia.

(** * The claims *)

(** ** C1: the double-jump example *)

(** C1, as stated, fails: in the position of the example [get_valid_moves]
    returns the one-jump chain from (4,3) to (6,5), which is not the two-jump
    chain the claim names. *)
Lemma double_jump_chain_not_returned :
  current_player double_jump_position = 1 /\
  cell double_jump_position (4, 3) = Some 1 /\
  cell double_jump_position (5, 4) = Some 3 /\
  cell double_jump_position (6, 5) = Some 0 /\
  cell double_jump_position (5, 6) = Some 3 /\
  cell double_jump_position (4, 7) = Some 0 /\
  exists ms,
    get_valid_moves double_jump_position = (double_jump_position, inr ms) /\
    ms = [((4, 3), [(6, 5)])] /\
    ms <> [((4, 3), [(6, 5); (4, 7)])].
Proof.
  repeat (split; [reflexivity |]).
  eexists. split; [by vm_compute |]. split; [done | discriminate].
Qed.

(** In the same position with a king on (4,3), which may jump in all four
    directions, the search returns the one-jump chain too: the nested call
    reads its piece from the landing square, which is empty. *)
Example king_double_jump_chain_not_returned :
  get_valid_moves king_double_jump_position =
    (king_double_jump_position, inr [((4, 3), [(6, 5)])]).
Proof. by vm_compute. Qed.

(** C1 (amended): on every board where, with Black to move, a Black man on
    (4,3) can jump the White man on (5,4) to (6,5), a White man stands on
    (5,6) and (4,7) is empty, [get_valid_moves] returns the one-jump chain
    from (4,3) to (6,5), the only move there is when these three pieces are
    alone on the board, and does not return the two-jump chain over (6,5) to
    (4,7): a Black man jumps towards increasing rows only.  [make_move],
    which does not validate its argument, applied to that two-jump chain
    empties (4,3), (5,4) and (5,6) and leaves a Black man on (4,7). *)
Theorem double_jump_example g :
  wf_game g -> current_player g = 1 ->
  cell g (4, 3) = Some 1 -> cell g (5, 4) = Some 3 -> cell g (6, 5) = Some 0 ->
  cell g (5, 6) = Some 3 -> cell g (4, 7) = Some 0 ->
  exists ms g',
    get_valid_moves g = (g, inr ms) /\
    In ((4, 3), [(6, 5)]) ms /\
    ~ In ((4, 3), [(6, 5); (4, 7)]) ms /\
    (g = double_jump_position -> ms = [((4, 3), [(6, 5)])]) /\
    make_move (4, 3) [(6, 5); (4, 7)] g = (g', inr tt) /\
    cell g' (4, 3) = Some 0 /\ cell g' (5, 4) = Some 0 /\
    cell g' (5, 6) = Some 0 /\ cell g' (4, 7) = Some 1.
Proof.
  intros Hwf Hcp H43 H54 H65 H56 H47.
  assert (is_jump_move g ((4, 3), [(6, 5)])) as Hjump.
  { split; [on_board_concrete |]. exists 1, (2, 2). simpl.
    split; [done |]. split; [by unfold mine; rewrite Hcp |].
    split; [by right; left |]. split; [| done].
    split; [on_board_concrete |]. split; [exact H65 |].
    exists 3. split; [exact H54 | by unfold theirs; rewrite Hcp]. }
  destruct (get_valid_moves_spec g Hwf) as (ms & Hrun & [[_ Hms] | [Hno _]]).
  2:{ exfalso. apply Hno. eauto. }
  set (g1 := poke g (4, 3) 0).
  set (g2 := poke g1 (5, 4) 0).
  set (g3 := poke g2 (5, 6) 0).
  set (g4 := poke g3 (4, 7) 1).
  assert (wf_game g1) as Hwf1 by (apply wf_poke; [done | on_board_concrete]).
  assert (wf_game g2) as Hwf2 by (apply wf_poke; [done | on_board_concrete]).
  assert (wf_game g3) as Hwf3 by (apply wf_poke; [done | on_board_concrete]).
  exists ms, (mkGame (board g4) (current_player g4 * -1)).
  split; [done |]. split; [by apply Hms |]. split.
  { intros Hin. apply Hms in Hin as (_ & piece & d & _ & _ & _ & _ & Hseq).
    discriminate Hseq. }
  split.
  { intros ->.
    assert (get_valid_moves double_jump_position =
            (double_jump_position, inr [((4, 3), [(6, 5)])])) as Hc
      by by vm_compute.
    congruence. }
  split.
  { unfold make_move.
    rewrite (bind_ok _ _ g g 1) by by apply board_get_cell.
    rewrite (bind_ok _ _ g g1 tt)
      by (apply (board_set_poke g (4, 3) 0 Hwf); on_board_concrete).
    rewrite (bind_ok _ _ g1 g4 (4, 7, 1)); [done |].
    simpl enumerate_from. rewrite for_each_cons.
    rewrite (bind_ok _ _ g1 g2 (6, 5, 1)).
    2:{ unfold make_move_step. simpl.
        rewrite (bind_ok _ _ g1 g2 tt); [done |].
        apply (board_set_poke g1 (5, 4) 0 Hwf1). on_board_concrete. }
    rewrite for_each_cons.
    rewrite (bind_ok _ _ g2 g4 (4, 7, 1)); [done |].
    unfold make_move_step. simpl.
    rewrite (bind_ok _ _ g2 g3 tt).
    2:{ apply (board_set_poke g2 (5, 6) 0 Hwf2). on_board_concrete. }
    rewrite (bind_ok _ _ g3 g4 1); [done |].
    rewrite (bind_ok _ _ g3 g4 tt); [done |].
    apply (board_set_poke g3 (4, 7) 1 Hwf3). on_board_concrete. }
  rewrite !cell_mkGame.
  assert (on_board (4, 3) /\ on_board (5, 4) /\ on_board (5, 6) /\
          on_board (4, 7)) as (B43 & B54 & B56 & B47)
    by (repeat split; simpl; lia).
  unfold g4. rewrite cell_poke_eq by done.
  rewrite !(cell_poke_ne g3 (4, 7)) by (done || discriminate).
  unfold g3. rewrite cell_poke_eq by done.
  rewrite !(cell_poke_ne g2 (5, 6)) by (done || discriminate).
  unfold g2. rewrite cell_poke_eq by done.
  rewrite !(cell_poke_ne g1 (5, 4)) by (done || discriminate).
  unfold g1. rewrite cell_poke_eq by done. done.
Qed.

Lemma double_jump_example_witness :
  exists ms g',
    get_valid_moves double_jump_position = (double_jump_position, inr ms) /\
    In ((4, 3), [(6, 5)]) ms /\
    ~ In ((4, 3), [(6, 5); (4, 7)]) ms /\
    (double_jump_position = double_jump_position -> ms = [((4, 3), [(6, 5)])]) /\
    make_move (4, 3) [(6, 5); (4, 7)] double_jump_position = (g', inr tt) /\
    cell g' (4, 3) = Some 0 /\ cell g' (5, 4) = Some 0 /\
    cell g' (5, 6) = Some 0 /\ cell g' (4, 7) = Some 1.
Proof.
  apply (double_jump_example double_jump_position);
    [apply wf_double_jump_position | reflexivity ..].
Defined.

(** ** C2: captures are mandatory *)

(** C2: on every board on which some piece of the side to move can jump,
    [get_valid_moves] returns (without error, and without touching the
    engine) a non-empty list made of captures only: every move in it is a
    jump of two rows over a piece of the other side, and no one-square step
    of any piece of the side to move is in it. *)
Theorem mandatory_capture g :
  wf_game g -> (exists m, is_jump_move g m) ->
  exists ms,
    get_valid_moves g = (g, inr ms) /\ ms <> [] /\
    (forall m, In m ms ->
       is_jump_move g m /\ capture_steps m.1 m.2 = length m.2) /\
    (forall m, is_step_move g m -> ~ In m ms).
Proof.
  intros Hwf Hex.
  destruct (get_valid_moves_spec g Hwf) as (ms & Hrun & [[_ Hms] | [Hno _]]);
    [| done].
  assert (forall m, is_jump_move g m -> capture_steps m.1 m.2 = length m.2)
    as Hsteps.
  { intros [s seq] (_ & piece & d & _ & _ & Hd & _ & Hseq).
    simpl in *. subst seq. apply capture_directions_two in Hd as [Hd _].
    simpl. replace (Z.abs (s.1 + d.1 - s.1) =? 2) with true; [done |].
    symmetry. apply Z.eqb_eq. lia. }
  exists ms. split; [done |]. split.
  { destruct Hex as [m Hm]. apply Hms in Hm. by destruct ms. }
  split.
  - intros m Hm. apply Hms in Hm. split; [done | by apply Hsteps].
  - intros [s seq] Hstep Hin. apply Hms, Hsteps in Hin.
    destruct Hstep as (_ & piece & d & _ & _ & Hd & _ & _ & Hseq).
    simpl in *. subst seq. apply normal_directions_one in Hd as [Hd _].
    simpl in Hin.
    replace (Z.abs (s.1 + d.1 - s.1) =? 2) with false in Hin; [done |].
    symmetry. apply Z.eqb_neq. lia.
Qed.

Lemma mandatory_capture_witness :
  exists ms,
    get_valid_moves double_jump_position = (double_jump_position, inr ms) /\
    ms <> [] /\
    (forall m, In m ms ->
       is_jump_move double_jump_position m /\
       capture_steps m.1 m.2 = length m.2) /\
    (forall m, is_step_move double_jump_position m -> ~ In m ms).
Proof.
  apply (mandatory_capture double_jump_position);
    [apply wf_double_jump_position |].
  exists ((4, 3), [(6, 5)]). split; [on_board_concrete |].
  exists 1, (2, 2). split; [reflexivity |]. split; [reflexivity |].
  split; [right; left; reflexivity |]. split; [| reflexivity].
  split; [on_board_concrete |]. split; [reflexivity |].
  exists 3. split; reflexivity.
Defined.

(** ** C3: the state accessor *)

(** C3: [get_state] is documented to return a deep copy of the board, but it
    calls a method that a numpy array does not have: on every engine state
    the call raises [AttributeError] and returns no grid at all. *)
Theorem get_state_raises g : get_state g = (g, inl AttributeError).
Proof. reflexivity. Qed.

(** ** C4: moves that are not legal *)

(** C4, as stated, fails: from the initial position the move of the man on
    (2,1) two rows down to (4,3), which is not among the legal moves, is
    carried out; no exception is raised and the engine state changes. *)
Lemma illegal_move_not_rejected :
  exists ms g',
    get_valid_moves new_game = (new_game, inr ms) /\
    ~ In ((2, 1), [(4, 3)]) ms /\
    make_move (2, 1) [(4, 3)] new_game = (g', inr tt) /\
    g' <> new_game /\
    cell g' (2, 1) = Some 0 /\ cell g' (4, 3) = Some 1 /\
    current_player g' = -1.
Proof.
  do 2 eexists. split; [by vm_compute |]. split.
  { simpl. intros H. repeat destruct H as [H | H]; discriminate H || done. }
  split; [by vm_compute |]. split; [discriminate |]. by vm_compute.
Qed.

(** C4 (amended): [make_move] does not look at [get_valid_moves] and has no
    rejection path: for every engine state and every move whose squares are
    on the board, legal or not, it runs to the end without raising, keeps
    the shape of the board and negates the side to move. *)
Theorem make_move_unchecked g s ms :
  wf_game g -> on_board s -> Forall on_board ms ->
  exists g',
    make_move s ms g = (g', inr tt) /\ wf_game g' /\
    current_player g' = - current_player g.
Proof.
  intros Hwf Hs Hms.
  destruct (make_move_total g s ms Hwf Hs Hms) as (g' & Hrun & Hwf' & Hcp & _).
  eauto.
Qed.

Lemma make_move_unchecked_witness :
  wf_game new_game /\ on_board (2, 1) /\ Forall on_board [(4, 3)] /\
  exists g',
    make_move (2, 1) [(4, 3)] new_game = (g', inr tt) /\ wf_game g' /\
    current_player g' = - current_player new_game.
Proof.
  assert (on_board (2, 1)) as Hs by (split; simpl; lia).
  assert (Forall on_board [(4, 3)]) as Hms
    by (repeat constructor; simpl; lia).
  split; [apply wf_new_game |]. split; [exact Hs |]. split; [exact Hms |].
  apply (make_move_unchecked new_game (2, 1) [(4, 3)] wf_new_game Hs Hms).
Defined.

(** ** C6: promotion *)

Lemma wf_last_row_midway_position : wf_game last_row_midway_position.
Proof. apply wf_board_concrete. by vm_compute. Qed.

(** C6: when [make_move] walks a piece from [s] through the squares [seq]
    to the final square [d] (all on the board), a Black man (1) ends as a
    Black king (2) on [d] exactly when [d] is on row 7, and a White man (3)
    ends as a White king (4) exactly when [d] is on row 0; the rows of the
    squares of [seq], visited before the last step, play no part. *)
Theorem promotion_on_final_square g s seq d piece :
  wf_game g -> on_board s -> Forall on_board seq -> on_board d ->
  cell g s = Some piece ->
  exists g',
    make_move s (seq ++ [d]) g = (g', inr tt) /\
    (piece = 1 -> d.1 = 7 -> cell g' d = Some 2) /\
    (piece = 3 -> d.1 = 0 -> cell g' d = Some 4) /\
    (piece = 1 -> d.1 <> 7 -> cell g' d = Some 1) /\
    (piece = 3 -> d.1 <> 0 -> cell g' d = Some 3).
Proof.
  intros Hwf Hs Hseq Hd Hpiece.
  destruct (make_move_total g s (seq ++ [d]) Hwf Hs) as (g' & Hrun & _ & _ & Hl).
  { apply Forall_app. split; [done |]. by constructor. }
  specialize (Hl piece seq d Hpiece eq_refl).
  exists g'. split; [done |]. rewrite Hl. unfold kinged.
  repeat split; intros -> Hrow; simpl.
  - by rewrite Hrow.
  - by rewrite Hrow.
  - by destruct (Z.eqb_spec d.1 7).
  - by destruct (Z.eqb_spec d.1 0).
Qed.

Lemma promotion_on_final_square_witness :
  exists g',
    make_move (5, 2) ([(7, 4)] ++ [(5, 6)]) last_row_midway_position =
      (g', inr tt) /\
    (1 = 1 -> (5, 6).1 = 7 -> cell g' (5, 6) = Some 2) /\
    (1 = 3 -> (5, 6).1 = 0 -> cell g' (5, 6) = Some 4) /\
    (1 = 1 -> (5, 6).1 <> 7 -> cell g' (5, 6) = Some 1) /\
    (1 = 3 -> (5, 6).1 <> 0 -> cell g' (5, 6) = Some 3).
Proof.
  apply (promotion_on_final_square last_row_midway_position (5, 2) [(7, 4)]
           (5, 6) 1).
  - apply wf_last_row_midway_position.
  - split; simpl; lia.
  - repeat constructor; simpl; lia.
  - split; simpl; lia.
  - reflexivity.
Defined.

(** A man that ends its move on the last row is kinged there; one that only
    passes over the last row is not. *)
Example man_kinged_on_row_7 :
  exists g',
    make_move (6, 1) [(7, 2)] promotion_position = (g', inr tt) /\
    cell g' (7, 2) = Some 2.
Proof. eexists. split; by vm_compute. Qed.

Example man_not_kinged_midway :
  exists g',
    make_move (5, 2) [(7, 4); (5, 6)] last_row_midway_position = (g', inr tt) /\
    cell g' (7, 4) = Some 0 /\ cell g' (5, 6) = Some 1.
Proof. eexists. split; [by vm_compute |]. by vm_compute. Qed.

(** ** C7: the first moves of the game *)

(** C7: in the freshly initialised game Black is to move and
    [get_valid_moves] returns exactly seven moves; each takes a Black man
    from row 2 one square diagonally to an empty square of odd parity on
    row 3, and none has a capture step. *)
Theorem initial_moves :
  current_player new_game = 1 /\
  exists ms,
    get_valid_moves new_game = (new_game, inr ms) /\
    ms = [ ((2, 1), [(3, 0)]); ((2, 1), [(3, 2)]); ((2, 3), [(3, 2)]);
           ((2, 3), [(3, 4)]); ((2, 5), [(3, 4)]); ((2, 5), [(3, 6)]);
           ((2, 7), [(3, 6)]) ] /\
    length ms = 7%nat /\
    Forall (fun m : move =>
              exists d,
                m.2 = [d] /\ m.1.1 = 2 /\ cell new_game m.1 = Some 1 /\
                d.1 = 3 /\ Z.abs (d.2 - m.1.2) = 1 /\
                (d.1 + d.2) mod 2 = 1 /\ cell new_game d = Some 0 /\
                capture_steps m.1 m.2 = 0%nat /\
                is_step_move new_game m /\ ~ is_jump_move new_game m) ms.
Proof.
  split; [reflexivity |].
  destruct (get_valid_moves_spec new_game wf_new_game)
    as (ms & Hrun & Hshape).
  assert (ms = [ ((2, 1), [(3, 0)]); ((2, 1), [(3, 2)]); ((2, 3), [(3, 2)]);
                 ((2, 3), [(3, 4)]); ((2, 5), [(3, 4)]); ((2, 5), [(3, 6)]);
                 ((2, 7), [(3, 6)]) ]) as Hms.
  { assert (get_valid_moves new_game =
            (new_game,
             inr [ ((2, 1), [(3, 0)]); ((2, 1), [(3, 2)]); ((2, 3), [(3, 2)]);
                   ((2, 3), [(3, 4)]); ((2, 5), [(3, 4)]); ((2, 5), [(3, 6)]);
                   ((2, 7), [(3, 6)]) ])) as Hc by by vm_compute.
    congruence. }
  exists ms. split; [done |]. split; [done |]. split; [by rewrite Hms |].
  assert (forall m, In m ms -> is_step_move new_game m /\ ~ is_jump_move new_game m)
    as Hstep.
  { destruct Hshape as [[_ Hj] | [Hno Hs]].
    - exfalso. assert (is_jump_move new_game ((2, 1), [(3, 0)])) as Hbad.
      { apply Hj. rewrite Hms. by left. }
      destruct Hbad as (_ & piece & d & _ & _ & Hd & _ & Heq).
      apply capture_directions_two in Hd. simpl in Heq. injection Heq. lia.
    - intros m Hm. split; [by apply Hs |]. intros Hj. apply Hno. eauto. }
  apply List.Forall_forall. intros m Hm. pose proof (Hstep m Hm) as [Hs Hj].
  rewrite Hms in Hm. simpl in Hm.
  repeat (destruct Hm as [<- | Hm];
          [eexists; split; [reflexivity |];
           repeat (split; [by vm_compute |]); done |]).
  destruct Hm.
Qed.

(** ** C5: conservation of pieces *)

Lemma kinged_kind piece row sd rk :
  piece_kind piece = Some (sd, rk) ->
  piece_kind (kinged piece row) =
    Some (sd, match rk with
              | Man => if row =? crown_row sd then King else Man
              | King => King
              end).
Proof.
  unfold piece_kind, kinged.
  destruct (Z.eqb_spec piece 1) as [-> | ?]; simpl.
  { intros [= <- <-]. simpl. by destruct (row =? 7). }
  destruct (Z.eqb_spec piece 2) as [-> | ?]; simpl.
  { by intros [= <- <-]. }
  destruct (Z.eqb_spec piece 3) as [-> | ?]; simpl.
  { intros [= <- <-]. simpl. by destruct (row =? 0). }
  destruct (Z.eqb_spec piece 4) as [-> | ?]; simpl.
  { by intros [= <- <-]. }
  done.
Qed.

(** C5: applying a move that [get_valid_moves] returned succeeds; the number
    of non-empty squares goes down by exactly the number of steps of the
    move whose row delta has magnitude 2, so it never grows; every square
    other than the start, the jumped squares and the destination keeps its
    content; and the moved piece arrives with its side, and with its rank
    unless it is a man landing on the crown row of its side, which becomes
    a king. *)
Theorem conservation g ms m :
  wf_game g -> get_valid_moves g = (g, inr ms) -> In m ms ->
  exists g' piece landed sd rk,
    make_move m.1 m.2 g = (g', inr tt) /\
    (count_pieces g' + capture_steps m.1 m.2 = count_pieces g)%nat /\
    (count_pieces g' <= count_pieces g)%nat /\
    (forall q, on_board q -> q <> m.1 -> q <> List.last m.2 m.1 ->
       ~ In q (capture_midpoints m.1 m.2) -> cell g' q = cell g q) /\
    cell g m.1 = Some piece /\ piece_kind piece = Some (sd, rk) /\
    cell g' (List.last m.2 m.1) = Some landed /\
    piece_kind landed =
      Some (sd, match rk with
                | Man =>
                    if (List.last m.2 m.1).1 =? crown_row sd then King else Man
                | King => King
                end).
Proof.
  intros Hwf Hrun Hin.
  destruct (valid_move_applies g ms m Hwf Hrun Hin)
    as (g' & piece & d & Hm2 & _ & _ & Hpiece & Hmine & _ & _ & Hmove & _ & _ &
        _ & Hd & _ & Hframe & Hcount).
  assert (List.last m.2 m.1 = d) as Hlast by by rewrite Hm2.
  assert (exists sd rk, piece_kind piece = Some (sd, rk)) as (sd & rk & Hkind).
  { apply mine_cases in Hmine as [-> | [-> | [-> | ->]]]; simpl; eauto. }
  exists g', piece, (kinged piece d.1), sd, rk. rewrite Hlast.
  rewrite capture_steps_midpoints.
  split; [done |]. split; [done |]. split; [lia |].
  split; [intros q ? ? ? ?; by apply Hframe |].
  split; [done |]. split; [done |]. split; [done |].
  by apply kinged_kind.
Qed.

Lemma conservation_witness :
  exists g' piece landed sd rk,
    make_move (4, 3) [(6, 5)] double_jump_position = (g', inr tt) /\
    (count_pieces g' + capture_steps (4, 3)%Z [(6, 5)%Z] =
     count_pieces double_jump_position)%nat /\
    (count_pieces g' <= count_pieces double_jump_position)%nat /\
    (forall q, on_board q -> q <> (4, 3) -> q <> List.last [(6, 5)] (4, 3) ->
       ~ In q (capture_midpoints (4, 3) [(6, 5)]) ->
       cell g' q = cell double_jump_position q) /\
    cell double_jump_position (4, 3) = Some piece /\
    piece_kind piece = Some (sd, rk) /\
    cell g' (List.last [(6, 5)] (4, 3)) = Some landed /\
    piece_kind landed =
      Some (sd, match rk with
                | Man =>
                    if (List.last [(6, 5)] (4, 3)).1 =? crown_row sd
                    then King else Man
                | King => King
                end).
Proof.
  apply (conservation double_jump_position [((4, 3), [(6, 5)])]
           ((4, 3), [(6, 5)])).
  - apply wf_double_jump_position.
  - vm_compute. reflexivity.
  - left. reflexivity.
Defined.

(** ** C8: the frame of a move *)

(** C8: applying a move that [get_valid_moves] returned succeeds and negates
    [current_player]; the start square becomes empty, so does the midpoint
    of every step whose row delta has magnitude 2, the final destination
    holds the moved piece (kinged if it must be), and every other square of
    the board, the landing squares before the last one included, keeps its
    content. *)
Theorem make_move_frame g ms m :
  wf_game g -> get_valid_moves g = (g, inr ms) -> In m ms ->
  exists g' piece,
    make_move m.1 m.2 g = (g', inr tt) /\
    current_player g' = - current_player g /\
    cell g m.1 = Some piece /\
    cell g' m.1 = Some 0 /\
    (forall q, In q (capture_midpoints m.1 m.2) -> cell g' q = Some 0) /\
    cell g' (List.last m.2 m.1) = Some (kinged piece (List.last m.2 m.1).1) /\
    (forall q, on_board q -> q <> m.1 ->
       ~ In q (capture_midpoints m.1 m.2) -> q <> List.last m.2 m.1 ->
       cell g' q = cell g q) /\
    (forall q, In q (removelast m.2) -> cell g' q = cell g q).
Proof.
  intros Hwf Hrun Hin.
  destruct (valid_move_applies g ms m Hwf Hrun Hin)
    as (g' & piece & d & Hm2 & _ & _ & Hpiece & _ & _ & _ & Hmove & _ & Hcp &
        Hstart & Hd & Hmid & Hframe & _).
  assert (List.last m.2 m.1 = d) as Hlast by by rewrite Hm2.
  exists g', piece. rewrite Hlast.
  split; [done |]. split; [done |]. split; [done |]. split; [done |].
  split; [intros q Hq; by apply Hmid in Hq as (_ & ? & _) |].
  split; [done |].
  split; [intros q ? ? ? ?; by apply Hframe |].
  rewrite Hm2. by intros q [].
Qed.

Lemma make_move_frame_witness :
  exists g' piece,
    make_move (4, 3) [(6, 5)] double_jump_position = (g', inr tt) /\
    current_player g' = - current_player double_jump_position /\
    cell double_jump_position (4, 3) = Some piece /\
    cell g' (4, 3) = Some 0 /\
    (forall q, In q (capture_midpoints (4, 3) [(6, 5)]) -> cell g' q = Some 0) /\
    cell g' (List.last [(6, 5)] (4, 3)) =
      Some (kinged piece (List.last [(6, 5)] (4, 3)).1) /\
    (forall q, on_board q -> q <> (4, 3) ->
       ~ In q (capture_midpoints (4, 3) [(6, 5)]) ->
       q <> List.last [(6, 5)] (4, 3) ->
       cell g' q = cell double_jump_position q) /\
    (forall q, In q (removelast [(6, 5)]) ->
       cell g' q = cell double_jump_position q).
Proof.
  apply (make_move_frame double_jump_position [((4, 3), [(6, 5)])]
           ((4, 3), [(6, 5)])).
  - apply wf_double_jump_position.
  - vm_compute. reflexivity.
  - left. reflexivity.
Defined.

(** ** C9: pieces stay on the squares of odd parity *)

Lemma applies_preserves_dark g m g' :
  wf_game g -> dark_only g -> applies g m g' -> dark_only g'.
Proof.
  intros Hwf Hdark (piece & d & _ & Hs & _ & Hpiece & Hmine & _ & Hpar & _ & _ &
                    _ & Hstart & _ & Hmid & Hframe & _) p Hp Heven.
  destruct (decide (p = m.1)) as [-> | Hps]; [done |].
  destruct (decide (p = d)) as [-> | Hpd].
  { exfalso. rewrite Hpar in Heven. apply mine_nonzero in Hmine.
    pose proof (Hdark m.1 Hs Heven). congruence. }
  destruct (decide (p ∈ capture_midpoints m.1 m.2)) as [Hin | Hin].
  { apply list_elem_of_In, Hmid in Hin as (_ & ? & _). done. }
  rewrite Hframe; [by apply Hdark | done | done | done |].
  by rewrite <- list_elem_of_In.
Qed.

Lemma reachable_wf_dark g : reachable g -> wf_game g /\ dark_only g.
Proof.
  induction 1 as [| g ms m g' _ [Hwf Hdark] Hrun Hin Hmove].
  - split; [apply wf_new_game | apply dark_only_new_game].
  - destruct (valid_move_applies g ms m Hwf Hrun Hin) as (g'' & Happ).
    assert (g'' = g') as ->.
    { destruct Happ as (? & ? & _ & _ & _ & _ & _ & _ & _ & Hmove' & _).
      congruence. }
    split; [| by eapply applies_preserves_dark].
    by destruct Happ as (? & ? & _ & _ & _ & _ & _ & _ & _ & _ & ? & _).
Qed.

(** C9: every square of even parity is empty in the initial state; in every
    state [g] reached from it by legal moves the board is still 8x8 with
    every square of even parity empty, and any move returned by
    [get_valid_moves] in [g] is applied by [make_move] without error and
    leaves every square of even parity empty. *)
Theorem dark_squares_invariant g :
  reachable g ->
  dark_only new_game /\ wf_game g /\ dark_only g /\
  forall ms m,
    get_valid_moves g = (g, inr ms) -> In m ms ->
    exists g', make_move m.1 m.2 g = (g', inr tt) /\ dark_only g'.
Proof.
  intros Hreach. destruct (reachable_wf_dark g Hreach) as [Hwf Hdark].
  split; [apply dark_only_new_game |]. split; [done |]. split; [done |].
  intros ms m Hrun Hin.
  destruct (valid_move_applies g ms m Hwf Hrun Hin) as (g' & Happ).
  exists g'. split; [| by eapply applies_preserves_dark].
  by destruct Happ as (? & ? & _ & _ & _ & _ & _ & _ & _ & ? & _).
Qed.

Lemma dark_squares_invariant_witness :
  reachable after_first_move /\
  dark_only new_game /\ wf_game after_first_move /\
  dark_only after_first_move /\
  forall ms m,
    get_valid_moves after_first_move = (after_first_move, inr ms) ->
    In m ms ->
    exists g', make_move m.1 m.2 after_first_move = (g', inr tt) /\ dark_only g'.
Proof.
  assert (reachable after_first_move) as Hreach.
  { apply (reachable_move new_game
             [ ((2, 1), [(3, 0)]); ((2, 1), [(3, 2)]); ((2, 3), [(3, 2)]);
               ((2, 3), [(3, 4)]); ((2, 5), [(3, 4)]); ((2, 5), [(3, 6)]);
               ((2, 7), [(3, 6)]) ]
             ((2, 1), [(3, 0)])).
    - apply reachable_new.
    - vm_compute. reflexivity.
    - left. reflexivity.
    - vm_compute. reflexivity. }
  split; [exact Hreach |].
  apply (dark_squares_invariant after_first_move Hreach).
Defined.

(** ** C10: the queries do not touch the engine *)

Lemma read_only_is_game_over : read_only is_game_over.
Proof.
  unfold is_game_over.
  apply read_only_bind; [apply read_only_get_valid_moves |]. intros ms. ro_auto.
Qed.

Lemma read_only_get_winner : read_only get_winner.
Proof.
  unfold get_winner.
  apply read_only_bind; [apply read_only_is_game_over |]. intros over. ro_auto.
Qed.

(** C10: [get_valid_moves], the capture search under it (for any arguments
    and any depth), and [is_game_over] and [get_winner], which call it,
    leave the board and [current_player] exactly as they found them, on any
    engine state and whether they return or raise; and on a well-formed
    engine they do return. *)
Theorem queries_leave_engine_unchanged g :
  wf_game g ->
  (exists ms,
     get_valid_moves g = (g, inr ms) /\
     is_game_over g = (g, inr (Z.of_nat (length ms) =? 0)) /\
     get_winner g =
       (g, inr (if Z.of_nat (length ms) =? 0
                then Some (- current_player g) else None))) /\
  (forall h,
     (get_valid_moves h).1 = h /\ (is_game_over h).1 = h /\
     (get_winner h).1 = h) /\
  (forall h fuel r c cur all V,
     (_find_capture_sequences fuel r c cur all V h).1 = h) /\
  (forall h r c,
     (_get_capture_moves r c h).1 = h /\ (_get_normal_moves r c h).1 = h).
Proof.
  intros Hwf. split.
  - destruct (get_valid_moves_spec g Hwf) as (ms & Hrun & _).
    exists ms. split; [done |].
    assert (is_game_over g = (g, inr (Z.of_nat (length ms) =? 0))) as Hover.
    { unfold is_game_over. by rewrite (bind_ok _ _ g g ms). }
    split; [done |]. unfold get_winner.
    rewrite (bind_ok _ _ g g (Z.of_nat (length ms) =? 0)) by done.
    by destruct (Z.of_nat (length ms) =? 0).
  - split; [| split].
    + intros h. split; [apply read_only_get_valid_moves |].
      split; [apply read_only_is_game_over | apply read_only_get_winner].
    + intros h fuel r c cur all V. apply read_only_find_capture_sequences.
    + intros h r c.
      split; [apply read_only_get_capture_moves | apply read_only_get_normal_moves].
Qed.

Lemma queries_leave_engine_unchanged_witness :
  wf_game new_game /\
  (exists ms,
     get_valid_moves new_game = (new_game, inr ms) /\
     is_game_over new_game = (new_game, inr (Z.of_nat (length ms) =? 0)) /\
     get_winner new_game =
       (new_game, inr (if Z.of_nat (length ms) =? 0
                       then Some (- current_player new_game) else None))) /\
  (forall h,
     (get_valid_moves h).1 = h /\ (is_game_over h).1 = h /\
     (get_winner h).1 = h) /\
  (forall h fuel r c cur all V,
     (_find_capture_sequences fuel r c cur all V h).1 = h) /\
  (forall h r c,
     (_get_capture_moves r c h).1 = h /\ (_get_normal_moves r c h).1 = h).
Proof.
  split; [apply wf_new_game |].
  apply (queries_leave_engine_unchanged new_game). apply wf_new_game.
Defined.


(** * Further properties of the code *)

(** ** The initial layout *)

#[local] Opaque range.

Lemma paint_app g ps qs v : paint g (ps ++ qs) v = paint (paint g ps v) qs v.
Proof. unfold paint. apply fold_left_app. Qed.

Lemma paint_spec ps v : forall g,
  wf_game g -> Forall on_board ps ->
  wf_game (paint g ps v) /\
  current_player (paint g ps v) = current_player g /\
  forall q, on_board q ->
    cell (paint g ps v) q = if decide (q ∈ ps) then Some v else cell g q.
Proof.
  induction ps as [| p ps IH]; intros g Hwf Hps.
  - split; [done |]. split; [done |]. intros q _.
    rewrite decide_False; [done | apply not_elem_of_nil].
  - apply Forall_cons in Hps as [Hp Hps].
    destruct (poke_spec g p v Hwf Hp) as (Hwf1 & Hcp1 & Hc1 & Hfr1).
    destruct (IH (poke g p v) Hwf1 Hps) as (Hwf' & Hcp' & Hcell').
    change (paint g (p :: ps) v) with (paint (poke g p v) ps v).
    split; [done |]. split; [congruence |]. intros q Hq.
    rewrite (Hcell' q Hq).
    destruct (decide (q ∈ ps)) as [Hin | Hin].
    + rewrite decide_True; [done | apply elem_of_cons; by right].
    + destruct (decide (q = p)) as [-> | Hne].
      * rewrite decide_True; [done | apply elem_of_cons; by left].
      * rewrite decide_False; [by apply Hfr1 |].
        intros [? | ?]%elem_of_cons; done.
Qed.

Lemma initialize_row g row v cols :
  wf_game g -> 0 <= row < 8 -> Forall (fun col => 0 <= col < 8) cols ->
  for_each cols
    (fun _ col => if (row + col) mod 2 =? 1 then board_set row col v else ret tt)
    tt g =
  (paint g (map (pair row)
              (List.filter (fun col => (row + col) mod 2 =? 1) cols)) v,
   inr tt).
Proof.
  intros Hwf Hrow. revert g Hwf.
  induction cols as [| col cols IH]; intros g Hwf Hcols; [done |].
  apply Forall_cons in Hcols as [Hcol Hcols].
  rewrite for_each_cons. simpl List.filter.
  destruct ((row + col) mod 2 =? 1).
  - assert (on_board (row, col)) as Hp by done.
    rewrite (bind_ok _ _ g (poke g (row, col) v) tt)
      by apply (board_set_poke g (row, col) v Hwf Hp).
    rewrite IH; [done | by apply wf_poke | done].
  - rewrite (bind_ok _ _ g g tt) by done. by apply IH.
Qed.

Lemma odd_squares_on_board rows :
  Forall (fun row => 0 <= row < 8) rows -> Forall on_board (odd_squares rows).
Proof.
  intros Hrows. apply List.Forall_forall. intros [r c] Hin.
  apply in_flat_map in Hin as (row & Hrow & Hin).
  apply in_map_iff in Hin as (col & [= <- <-] & Hcol).
  apply filter_In in Hcol as [Hcol _]. apply in_range in Hcol.
  rewrite List.Forall_forall in Hrows. split; [by apply Hrows | done].
Qed.

Lemma in_odd_squares rows q :
  q ∈ odd_squares rows <->
  In q.1 rows /\ 0 <= q.2 < 8 /\ (q.1 + q.2) mod 2 = 1.
Proof.
  rewrite list_elem_of_In. unfold odd_squares. rewrite in_flat_map.
  destruct q as [r c]. simpl. split.
  - intros (row & Hrow & Hin).
    apply in_map_iff in Hin as (col & [= <- <-] & Hcol).
    apply filter_In in Hcol as [Hcol Hodd]. apply in_range in Hcol.
    apply Z.eqb_eq in Hodd. done.
  - intros (Hrow & Hcol & Hodd). exists r. split; [done |].
    apply in_map_iff. exists c. split; [done |].
    apply filter_In. split; [by apply in_range | by apply Z.eqb_eq].
Qed.

Lemma odd_squares_cons row rows :
  odd_squares (row :: rows) = odd_squares [row] ++ odd_squares rows.
Proof. unfold odd_squares. simpl flat_map. by rewrite app_nil_r. Qed.

Lemma initialize_rows v rows : forall g,
  wf_game g -> Forall (fun row => 0 <= row < 8) rows ->
  for_each rows
    (fun _ row =>
       for_each (range 0 8)
         (fun _ col =>
            if (row + col) mod 2 =? 1 then board_set row col v else ret tt) tt)
    tt g =
  (paint g (odd_squares rows) v, inr tt).
Proof.
  induction rows as [| row rows IH]; intros g Hwf Hrows; [done |].
  apply Forall_cons in Hrows as [Hrow Hrows].
  rewrite for_each_cons.
  assert (Forall (fun col => 0 <= col < 8) (range 0 8)) as Hcols.
  { apply List.Forall_forall. intros col. apply in_range. }
  rewrite (bind_ok _ _ g (paint g (odd_squares [row]) v) tt).
  2:{ rewrite (initialize_row g row v (range 0 8) Hwf Hrow Hcols).
      unfold odd_squares. simpl flat_map. by rewrite app_nil_r. }
  rewrite (odd_squares_cons row rows), paint_app. apply IH; [| done].
  apply paint_spec; [done |]. apply odd_squares_on_board. by constructor.
Qed.

(** X1: [_initialize_board] only writes: on any 8x8 board it succeeds, puts
    a Black man (1) on every square of odd parity of rows 0 to 2 and a White
    man (3) on every square of odd parity of rows 5 to 7, and leaves every
    other square, and the side to move, as it found them. *)
Theorem initialize_board_writes_only g :
  wf_game g ->
  exists g',
    _initialize_board g = (g', inr tt) /\ wf_game g' /\
    current_player g' = current_player g /\
    forall p, on_board p ->
      ((p.1 + p.2) mod 2 = 1 -> p.1 < 3 -> cell g' p = Some 1) /\
      ((p.1 + p.2) mod 2 = 1 -> 5 <= p.1 -> cell g' p = Some 3) /\
      ((p.1 + p.2) mod 2 = 0 \/ 3 <= p.1 < 5 -> cell g' p = cell g p).
Proof.
  intros Hwf.
  assert (Forall (fun row => 0 <= row < 8) (range 0 3)) as Hr1.
  { apply List.Forall_forall. intros row Hrow. apply in_range in Hrow. lia. }
  assert (Forall (fun row => 0 <= row < 8) (range 5 8)) as Hr2.
  { apply List.Forall_forall. intros row Hrow. apply in_range in Hrow. lia. }
  set (g1 := paint g (odd_squares (range 0 3)) 1).
  destruct (paint_spec (odd_squares (range 0 3)) 1 g Hwf
              (odd_squares_on_board _ Hr1)) as (Hwf1 & Hcp1 & Hcell1).
  fold g1 in Hwf1, Hcp1, Hcell1.
  destruct (paint_spec (odd_squares (range 5 8)) 3 g1 Hwf1
              (odd_squares_on_board _ Hr2)) as (Hwf2 & Hcp2 & Hcell2).
  exists (paint g1 (odd_squares (range 5 8)) 3).
  split.
  { unfold _initialize_board.
    rewrite (bind_ok _ _ g g1 tt) by by apply initialize_rows.
    by apply initialize_rows. }
  split; [done |]. split; [congruence |].
  intros p Hp. rewrite (Hcell2 p Hp), (Hcell1 p Hp).
  pose proof (in_odd_squares (range 0 3) p) as Hin1.
  pose proof (in_odd_squares (range 5 8) p) as Hin2.
  rewrite in_range in Hin1, Hin2. destruct Hp as [Hp1 Hp2].
  assert (0 <= (p.1 + p.2) mod 2 < 2) as Hmod by (apply Z.mod_pos_bound; lia).
  repeat split; intros; repeat case_decide; try done;
    try (exfalso; lia); try (exfalso; tauto);
    try (exfalso; intuition lia).
Qed.

Lemma initialize_board_writes_only_witness :
  exists g',
    _initialize_board double_jump_position = (g', inr tt) /\ wf_game g' /\
    current_player g' = current_player double_jump_position /\
    forall p, on_board p ->
      ((p.1 + p.2) mod 2 = 1 -> p.1 < 3 -> cell g' p = Some 1) /\
      ((p.1 + p.2) mod 2 = 1 -> 5 <= p.1 -> cell g' p = Some 3) /\
      ((p.1 + p.2) mod 2 = 0 \/ 3 <= p.1 < 5 ->
       cell g' p = cell double_jump_position p).
Proof.
  apply (initialize_board_writes_only double_jump_position).
  apply wf_double_jump_position.
Defined.

(** ** The move generators *)

Lemma nil_iff_no_element {A : Type} (l : list A) : l = [] <-> forall x, ~ In x l.
Proof.
  split; [intros -> x []|]. intros H. destruct l as [| x l]; [done |].
  exfalso. apply (H x). by left.
Qed.

(** X2: on an 8x8 board [get_valid_moves] returns exactly the one-jump
    captures of the side to move when there is one, and exactly its
    one-square steps onto empty squares otherwise; in both cases a move has
    a single destination, on the board and empty, and starts on a piece of
    the side to move. *)
Theorem legal_moves_exact g :
  wf_game g ->
  exists ms,
    get_valid_moves g = (g, inr ms) /\
    (forall m, In m ms <->
       is_jump_move g m \/
       (is_step_move g m /\ ~ exists m', is_jump_move g m')) /\
    (forall m, In m ms ->
       exists piece d,
         m.2 = [d] /\ on_board m.1 /\ on_board d /\
         cell g m.1 = Some piece /\ mine g piece = true /\
         cell g d = Some 0).
Proof.
  intros Hwf.
  destruct (get_valid_moves_spec g Hwf) as (ms & Hrun & Hshape).
  exists ms. split; [done |].
  assert (forall m, is_jump_move g m \/ is_step_move g m ->
            exists piece d,
              m.2 = [d] /\ on_board m.1 /\ on_board d /\
              cell g m.1 = Some piece /\ mine g piece = true /\
              cell g d = Some 0) as Hone.
  { intros m [(Hs & piece & d & Hc & Hm & _ & (Hd & He & _) & Hseq)
             | (Hs & piece & d & Hc & Hm & _ & Hd & He & Hseq)];
      exists piece, (shift m.1 d); tauto. }
  destruct Hshape as [[Hex Hj] | [Hno Hs]].
  - split.
    + intros m. rewrite Hj. split; [by left |]. intros [? | [_ ?]]; done.
    + intros m Hm. apply Hone. left. by apply Hj.
  - split.
    + intros m. rewrite Hs. split; [by right |].
      intros [Hj | [? _]]; [| done]. exfalso. apply Hno. eauto.
    + intros m Hm. apply Hone. right. by apply Hs.
Qed.

Lemma legal_moves_exact_witness :
  exists ms,
    get_valid_moves double_jump_position = (double_jump_position, inr ms) /\
    (forall m, In m ms <->
       is_jump_move double_jump_position m \/
       (is_step_move double_jump_position m /\
        ~ exists m', is_jump_move double_jump_position m')) /\
    (forall m, In m ms ->
       exists piece d,
         m.2 = [d] /\ on_board m.1 /\ on_board d /\
         cell double_jump_position m.1 = Some piece /\
         mine double_jump_position piece = true /\
         cell double_jump_position d = Some 0).
Proof.
  apply (legal_moves_exact double_jump_position).
  apply wf_double_jump_position.
Defined.

(** X3: the capture search stops after one jump.  For a piece on a square of
    an 8x8 board, [_get_capture_moves] returns one chain per jump the piece
    can make from that square (landing square on the board and empty, an
    opposing piece on the square in between), each chain holding that one
    landing square and nothing more; the search gives the same answer at
    any recursion depth from 2 on, and hands back the empty set [visited]
    it started with. *)
Theorem capture_chains_are_single_jumps g p piece :
  wf_game g -> on_board p -> cell g p = Some piece ->
  exists caps,
    _get_capture_moves p.1 p.2 g = (g, inr caps) /\
    (forall s, In s caps <->
       exists d, In d (capture_directions piece) /\ can_jump g p d /\
                 s = [shift p d]) /\
    (forall s, In s caps -> length s = 1%nat) /\
    (forall n,
       _find_capture_sequences (S (S n)) p.1 p.2 [] [] ∅ g =
         (g, inr (caps, ∅))).
Proof.
  intros Hwf Hp Hpiece.
  destruct (get_capture_moves_spec g p piece Hwf Hp Hpiece)
    as (caps & Hrun & Hcaps).
  exists caps. split; [done |]. split; [done |]. split.
  { intros s Hs. apply Hcaps in Hs as (d & _ & _ & ->). done. }
  intros n.
  destruct (find_capture_sequences_spec 63 g p piece [] [] ∅ Hwf Hp Hpiece)
    as (caps' & Hrun' & _).
  assert (caps' = caps) as ->.
  { unfold _get_capture_moves, search_depth in Hrun.
    rewrite (bind_ok _ _ g g (caps', ∅)) in Hrun by done.
    unfold ret in Hrun. congruence. }
  by rewrite (find_capture_sequences_fuel n 63).
Qed.

Lemma capture_chains_are_single_jumps_witness :
  exists caps,
    _get_capture_moves (4, 3).1 (4, 3).2 king_double_jump_position =
      (king_double_jump_position, inr caps) /\
    (forall s, In s caps <->
       exists d, In d (capture_directions 2) /\
                 can_jump king_double_jump_position (4, 3) d /\
                 s = [shift (4, 3) d]) /\
    (forall s, In s caps -> length s = 1%nat) /\
    (forall n,
       _find_capture_sequences (S (S n)) (4, 3).1 (4, 3).2 [] [] ∅
         king_double_jump_position =
         (king_double_jump_position, inr (caps, ∅))).
Proof.
  apply (capture_chains_are_single_jumps king_double_jump_position (4, 3) 2).
  - apply wf_king_double_jump_position.
  - split; simpl; lia.
  - reflexivity.
Defined.

(** X4: men only go forward and every move is diagonal.  In a move returned
    by [get_valid_moves] the destination is one or two rows away from the
    start and as many columns; a Black man (1) goes to a higher row and a
    White man (3) to a lower one. *)
Theorem men_move_forward g ms m :
  wf_game g -> get_valid_moves g = (g, inr ms) -> In m ms ->
  exists d,
    m.2 = [d] /\
    Z.abs (d.1 - m.1.1) = Z.abs (d.2 - m.1.2) /\
    1 <= Z.abs (d.1 - m.1.1) <= 2 /\
    (cell g m.1 = Some 1 -> m.1.1 < d.1) /\
    (cell g m.1 = Some 3 -> d.1 < m.1.1).
Proof.
  intros Hwf Hrun Hin.
  destruct (get_valid_moves_spec g Hwf) as (ms' & Hrun' & Hshape).
  assert (ms' = ms) as -> by congruence.
  assert (is_jump_move g m \/ is_step_move g m) as Hm.
  { destruct Hshape as [[_ H] | [_ H]]; [left | right]; by apply H. }
  destruct m as [s seq]. simpl.
  destruct Hm as [(_ & piece & d & Hc & _ & Hd & _ & Hseq)
                 | (_ & piece & d & Hc & _ & Hd & _ & _ & Hseq)];
    simpl in *; subst seq; exists (shift s d); simpl.
  - pose proof (capture_directions_two piece d Hd) as Hd2.
    split; [done |]. split; [lia |]. split; [lia |].
    split; intros Hpiece; rewrite Hc in Hpiece; injection Hpiece as Heq;
      subst piece; simpl in Hd;
      repeat (destruct Hd as [<- | Hd]; [simpl; lia |]); done.
  - pose proof (normal_directions_one piece d Hd) as Hd2.
    split; [done |]. split; [lia |]. split; [lia |].
    split; intros Hpiece; rewrite Hc in Hpiece; injection Hpiece as Heq;
      subst piece; simpl in Hd;
      repeat (destruct Hd as [<- | Hd]; [simpl; lia |]); done.
Qed.

Lemma men_move_forward_witness :
  exists d,
    ((4, 3), [(6, 5)]).2 = [d] /\
    Z.abs (d.1 - 4) = Z.abs (d.2 - 3) /\
    1 <= Z.abs (d.1 - 4) <= 2 /\
    (cell double_jump_position (4, 3) = Some 1 -> 4 < d.1) /\
    (cell double_jump_position (4, 3) = Some 3 -> d.1 < 4).
Proof.
  apply (men_move_forward double_jump_position [((4, 3), [(6, 5)])]
           ((4, 3), [(6, 5)])).
  - apply wf_double_jump_position.
  - vm_compute. reflexivity.
  - left. reflexivity.
Defined.

(** X5: a square that holds no piece (empty, or a value outside 1..4)
    yields no move: [_get_normal_moves] and [_get_capture_moves] both return
    the empty list for it. *)
Theorem no_piece_no_moves g p v :
  wf_game g -> on_board p -> cell g p = Some v -> ~ 1 <= v <= 4 ->
  _get_normal_moves p.1 p.2 g = (g, inr []) /\
  _get_capture_moves p.1 p.2 g = (g, inr []).
Proof.
  intros Hwf Hp Hcell Hv.
  assert (normal_directions v = [] /\ capture_directions v = []) as [Hn Hc].
  { unfold normal_directions, capture_directions, py_in. simpl.
    destruct (Z.eqb_spec v 1); [lia |]. destruct (Z.eqb_spec v 2); [lia |].
    destruct (Z.eqb_spec v 3); [lia |]. destruct (Z.eqb_spec v 4); [lia |].
    done. }
  split.
  - destruct (get_normal_moves_spec g p v Hwf Hcell) as (ms & -> & Hms).
    do 2 f_equal. apply nil_iff_no_element. intros q Hq.
    apply Hms in Hq as (d & Hd & _). rewrite Hn in Hd. done.
  - destruct (get_capture_moves_spec g p v Hwf Hp Hcell) as (caps & -> & Hcaps).
    do 2 f_equal. apply nil_iff_no_element. intros s Hs.
    apply Hcaps in Hs as (d & Hd & _). rewrite Hc in Hd. done.
Qed.

Lemma no_piece_no_moves_witness :
  _get_normal_moves (3, 3).1 (3, 3).2 double_jump_position =
    (double_jump_position, inr []) /\
  _get_capture_moves (3, 3).1 (3, 3).2 double_jump_position =
    (double_jump_position, inr []).
Proof.
  apply (no_piece_no_moves double_jump_position (3, 3) 0).
  - apply wf_double_jump_position.
  - split; simpl; lia.
  - reflexivity.
  - lia.
Defined.

(** ** The end of the game *)

(** X6: on an 8x8 board [is_game_over] answers [True] exactly when the side
    to move has neither a jump nor a step, and [get_winner] then names the
    side that is not to move ([-current_player]); while a move exists
    [get_winner] returns [None].  Neither call changes the engine. *)
Theorem game_over_iff_stuck g :
  wf_game g ->
  exists over : bool,
    is_game_over g = (g, inr over) /\
    (over = true <-> ~ exists m, is_jump_move g m \/ is_step_move g m) /\
    get_winner g =
      (g, inr (if over then Some (- current_player g) else None)).
Proof.
  intros Hwf.
  destruct (get_valid_moves_spec g Hwf) as (ms & Hrun & Hshape).
  exists (Z.of_nat (length ms) =? 0).
  assert (is_game_over g = (g, inr (Z.of_nat (length ms) =? 0))) as Hover.
  { unfold is_game_over. by rewrite (bind_ok _ _ g g ms). }
  split; [done |]. split.
  - rewrite Z.eqb_eq.
    assert (Z.of_nat (length ms) = 0 <-> forall m, ~ In m ms) as ->.
    { rewrite <- nil_iff_no_element.
      destruct ms; simpl length; [done | split; [lia | discriminate]]. }
    destruct Hshape as [[[m0 Hm0] Hj] | [Hno Hs]].
    + split.
      * intros Hnil. exfalso. apply (Hnil m0). by apply Hj.
      * intros Hnone. exfalso. apply Hnone. eauto.
    + split.
      * intros Hnil [m [Hm | Hm]]; [apply Hno; eauto |].
        apply (Hnil m). by apply Hs.
      * intros Hnone m Hm. apply Hnone. exists m. right. by apply Hs.
  - unfold get_winner.
    rewrite (bind_ok _ _ g g (Z.of_nat (length ms) =? 0)) by done.
    by destruct (Z.of_nat (length ms) =? 0).
Qed.

Lemma game_over_iff_stuck_witness :
  exists over : bool,
    is_game_over new_game = (new_game, inr over) /\
    (over = true <->
     ~ exists m, is_jump_move new_game m \/ is_step_move new_game m) /\
    get_winner new_game =
      (new_game, inr (if over then Some (- current_player new_game) else None)).
Proof. apply (game_over_iff_stuck new_game). apply wf_new_game. Defined.

(** X7: a side with no piece on the board has lost: if no square of an 8x8
    board holds a piece of the side to move, [get_valid_moves] returns the
    empty list, [is_game_over] returns [True] and [get_winner] returns
    [-current_player]. *)
Theorem no_pieces_loses g :
  wf_game g ->
  (forall p v, on_board p -> cell g p = Some v -> mine g v = false) ->
  get_valid_moves g = (g, inr []) /\
  is_game_over g = (g, inr true) /\
  get_winner g = (g, inr (Some (- current_player g))).
Proof.
  intros Hwf Hnone.
  destruct (get_valid_moves_spec g Hwf) as (ms & Hrun & Hshape).
  assert (ms = []) as ->.
  { apply nil_iff_no_element. intros m Hm.
    assert (is_jump_move g m \/ is_step_move g m) as Hmove.
    { destruct Hshape as [[_ H] | [_ H]]; [left | right]; by apply H. }
    destruct Hmove as [(Hs & piece & d & Hc & Hmine & _)
                      | (Hs & piece & d & Hc & Hmine & _)];
      rewrite (Hnone _ _ Hs Hc) in Hmine; done. }
  split; [done |].
  assert (is_game_over g = (g, inr true)) as Hover.
  { unfold is_game_over. by rewrite (bind_ok _ _ g g []). }
  split; [done |]. unfold get_winner. by rewrite (bind_ok _ _ g g true).
Qed.

Lemma no_pieces_loses_witness :
  get_valid_moves (mkGame zeros_8x8 1) = (mkGame zeros_8x8 1, inr []) /\
  is_game_over (mkGame zeros_8x8 1) = (mkGame zeros_8x8 1, inr true) /\
  get_winner (mkGame zeros_8x8 1) =
    (mkGame zeros_8x8 1, inr (Some (- current_player (mkGame zeros_8x8 1)))).
Proof.
  apply (no_pieces_loses (mkGame zeros_8x8 1)).
  - apply wf_board_concrete. vm_compute. reflexivity.
  - intros p v Hp Hcell.
    assert (Forall (fun q : pos => cell (mkGame zeros_8x8 1) q = Some 0) squares)
      as Hall by (apply (bool_decide_unpack _); vm_compute; exact I).
    apply in_squares in Hp. rewrite List.Forall_forall in Hall.
    rewrite (Hall p Hp) in Hcell. injection Hcell as <-. reflexivity.
Defined.

(** ** Edge cases of [make_move] *)

Lemma py_index_None n i :
  ~ - Z.of_nat n <= i < Z.of_nat n -> py_index n i = None.
Proof. intros H. unfold py_index. rewrite !decide_False by lia. done. Qed.

Lemma py_index_Some n i k : py_index n i = Some k -> (k < n)%nat.
Proof.
  unfold py_index. repeat case_decide; intros [= <-]; lia.
Qed.

(** A coordinate outside [-8, 8) makes the array access fail. *)
Lemma ndarray_off b r c :
  wf_board b -> ~ indexable r \/ ~ indexable c ->
  ndarray_get b r c = None /\ forall v, ndarray_set b r c v = None.
Proof.
  intros [Hlen Hall] Hoff. unfold ndarray_get, ndarray_set, indexable in *.
  rewrite Hlen.
  destruct (py_index 8 r) as [i |] eqn:Hi; [| done].
  assert (indexable r) as Hr.
  { unfold indexable. destruct (decide (-8 <= r < 8)) as [? | Hn]; [done |].
    rewrite py_index_None in Hi by (simpl; lia). done. }
  destruct Hoff as [? | Hc]; [done |].
  destruct (b !! i) as [line |] eqn:Hline; [| done].
  assert (length line = 8%nat) as ->.
  { rewrite Forall_lookup in Hall. by apply (Hall i). }
  rewrite py_index_None by (simpl; unfold indexable in Hc; lia). done.
Qed.

(** A write that goes through keeps the shape and leaves the other rows
    alone; with a negative index, the row counted from the end. *)
Lemma board_set_other_rows g r c v g' :
  wf_game g -> board_set r c v g = (g', inr tt) ->
  wf_game g' /\ current_player g' = current_player g /\
  forall q, on_board q -> py_index 8 r <> Some (Z.to_nat q.1) ->
    cell g' q = cell g q.
Proof.
  intros Hwf. pose proof Hwf as [Hlen Hall].
  unfold board_set, ndarray_set. rewrite Hlen.
  destruct (py_index 8 r) as [i |] eqn:Hi; [| done].
  destruct (board g !! i) as [line |] eqn:Hline; [| done].
  assert (length line = 8%nat) as Hl by (by eapply wf_board_line).
  rewrite Hl. destruct (py_index 8 c) as [j |] eqn:Hj; [| done].
  intros [= <-]. split.
  { split; simpl; [by rewrite length_insert |].
    apply Forall_insert; [done | by rewrite length_insert]. }
  split; [done |]. intros [qr qc] [Hqr Hqc] Hne. unfold cell, ndarray_get.
  simpl in *. rewrite length_insert, Hlen, py_index_on by lia.
  rewrite list_lookup_insert_ne; [done |]. intros ->. done.
Qed.

(** X8: [make_move] with an empty list of destinations takes the piece off
    the board: on an 8x8 board, for a start square on the board, the call
    succeeds, empties the start square, leaves every other square as it was
    and hands the turn to the other side. *)
Theorem make_move_without_destination g s :
  wf_game g -> on_board s ->
  exists g',
    make_move s [] g = (g', inr tt) /\
    current_player g' = - current_player g /\
    cell g' s = Some 0 /\
    (forall q, on_board q -> q <> s -> cell g' q = cell g q) /\
    (count_pieces g' + Nat.b2n (occupied g s) = count_pieces g)%nat.
Proof.
  intros Hwf Hs. destruct s as [row col]. unfold make_move.
  destruct (cell_on g _ Hwf Hs) as [piece Hpiece].
  destruct (poke_spec g (row, col) 0 Hwf Hs) as (Hwf1 & Hcp1 & Hc1 & Hfr1).
  exists (mkGame (board (poke g (row, col) 0)) (current_player g * -1)).
  split.
  { rewrite (bind_ok _ _ g g piece) by by apply board_get_cell.
    rewrite (bind_ok _ _ g (poke g (row, col) 0) tt)
      by apply (board_set_poke g (row, col) 0 Hwf Hs).
    simpl for_each.
    rewrite (bind_ok _ _ _ (poke g (row, col) 0) (row, col, piece)) by done.
    unfold bind, get_player, set_player. cbn [fst snd]. by rewrite Hcp1. }
  split; [cbn [current_player]; lia |]. rewrite !cell_mkGame.
  split; [done |]. split.
  { intros q Hq Hne. rewrite cell_mkGame. by apply Hfr1. }
  rewrite (count_pieces_board _ (poke g (row, col) 0)) by reflexivity.
  pose proof (count_poke g (row, col) 0 Hwf Hs) as Hn.
  change (0 =? 0) with true in Hn. cbn [negb Nat.b2n] in Hn. lia.
Qed.

Lemma make_move_without_destination_witness :
  exists g',
    make_move (4, 3) [] double_jump_position = (g', inr tt) /\
    current_player g' = - current_player double_jump_position /\
    cell g' (4, 3) = Some 0 /\
    (forall q, on_board q -> q <> (4, 3) ->
       cell g' q = cell double_jump_position q) /\
    (count_pieces g' + Nat.b2n (occupied double_jump_position (4, 3)%Z) =
     count_pieces double_jump_position)%nat.
Proof.
  apply (make_move_without_destination double_jump_position (4, 3)).
  - apply wf_double_jump_position.
  - split; simpl; lia.
Defined.

(** X9: a start square outside the array is refused before anything is
    written: if a coordinate of [start_pos] is outside [-8, 8), [make_move]
    raises [IndexError] and the engine is exactly as before. *)
Theorem make_move_start_off_board g s ms :
  wf_game g -> ~ indexable s.1 \/ ~ indexable s.2 ->
  make_move s ms g = (g, inl IndexError).
Proof.
  intros Hwf Hoff. destruct s as [row col]. unfold make_move.
  apply bind_raise. unfold board_get.
  by rewrite (proj1 (ndarray_off (board g) row col Hwf Hoff)).
Qed.

Lemma make_move_start_off_board_witness :
  make_move (8, 1) [(7, 2)] new_game = (new_game, inl IndexError).
Proof.
  apply (make_move_start_off_board new_game (8, 1) [(7, 2)]).
  - apply wf_new_game.
  - left. unfold indexable. simpl. lia.
Defined.

Lemma board_set_off g r c v :
  wf_game g -> ~ indexable r \/ ~ indexable c ->
  board_set r c v g = (g, inl IndexError).
Proof.
  intros Hwf Hoff. unfold board_set.
  by rewrite (proj2 (ndarray_off (board g) r c Hwf Hoff)).
Qed.

Lemma board_set_raises g r c v g' e :
  board_set r c v g = (g', inl e) -> g' = g /\ e = IndexError.
Proof.
  unfold board_set. destruct (ndarray_set _ _ _ _); [done |]. by intros [= <- <-].
Qed.

(** X10: a failing [make_move] is not undone.  On an 8x8 board, with the
    start square on the board and a single destination one of whose
    coordinates is outside [-8, 8), [make_move] raises [IndexError] after it
    has emptied the start square: the piece is gone, the board is still 8x8
    and the side to move is unchanged. *)
Theorem make_move_destination_off_board g s d :
  wf_game g -> on_board s -> ~ indexable d.1 \/ ~ indexable d.2 ->
  exists g',
    make_move s [d] g = (g', inl IndexError) /\
    wf_game g' /\ cell g' s = Some 0 /\
    current_player g' = current_player g.
Proof.
  intros Hwf Hs Hoff. destruct s as [row col], d as [nr nc]. simpl in Hoff.
  destruct (cell_on g _ Hwf Hs) as [piece Hpiece].
  destruct (poke_spec g (row, col) 0 Hwf Hs) as (Hwf1 & Hcp1 & Hc1 & _).
  set (g1 := poke g (row, col) 0) in *.
  assert (exists g',
            make_move_step 0 (row, col, piece) (0, (nr, nc)) g1 =
              (g', inl IndexError) /\
            wf_game g' /\ cell g' (row, col) = Some 0 /\
            current_player g' = current_player g1) as (g' & Hstep & Hg').
  { unfold make_move_step. simpl.
    destruct (Z.eqb_spec (Z.abs (nr - row)) 2) as [Habs | Habs].
    - destruct (board_set ((nr + row) / 2) ((nc + col) / 2) 0 g1)
        as [g2 [e | []]] eqn:Hmid.
      + apply board_set_raises in Hmid as Hg2. destruct Hg2 as [-> ->].
        exists g1. split; [by apply (bind_raise _ _ g1 g1) | done].
      + destruct (board_set_other_rows g1 _ _ _ g2 Hwf1 Hmid)
          as (Hwf2 & Hcp2 & Hfr2).
        exists g2. split.
        { rewrite (bind_ok _ _ g1 g2 tt) by done.
          apply (bind_raise _ _ g2 g2). apply (bind_raise _ _ g2 g2).
          by apply board_set_off. }
        split; [done |]. split; [| done].
        rewrite Hfr2; [done | done |]. simpl.
        assert ((nr + row) / 2 = row + 1 \/ (nr + row) / 2 = row - 1) as Hm.
        { Z.to_euclidean_division_equations. lia. }
        destruct Hs as [Hrow _]. simpl in Hrow. unfold py_index.
        repeat case_decide; intros [= Heq]; lia.
    - exists g1. split; [| done].
      rewrite (bind_ok _ _ g1 g1 tt) by done.
      apply (bind_raise _ _ g1 g1). apply (bind_raise _ _ g1 g1).
      by apply board_set_off. }
  exists g'. split; [| split; [tauto | split; [tauto |]]].
  - unfold make_move.
    rewrite (bind_ok _ _ g g piece) by by apply board_get_cell.
    rewrite (bind_ok _ _ g g1 tt)
      by apply (board_set_poke g (row, col) 0 Hwf Hs).
    apply (bind_raise _ _ g1 g'). simpl enumerate_from. rewrite for_each_cons.
    by apply (bind_raise _ _ g1 g').
  - destruct Hg' as (_ & _ & ->). done.
Qed.

Lemma make_move_destination_off_board_witness :
  exists g',
    make_move (7, 0) [(8, 1)] new_game = (g', inl IndexError) /\
    wf_game g' /\ cell g' (7, 0) = Some 0 /\
    current_player g' = current_player new_game.
Proof.
  apply (make_move_destination_off_board new_game (7, 0) (8, 1)).
  - apply wf_new_game.
  - split; simpl; lia.
  - left. unfold indexable. simpl. lia.
Defined.

(** ** Sides and turns *)

Lemma py_in_12 v : py_in v [1; 2] = true <-> v = 1 \/ v = 2.
Proof. unfold py_in. simpl. lia. Qed.

Lemma py_in_34 v : py_in v [3; 4] = true <-> v = 3 \/ v = 4.
Proof. unfold py_in. simpl. lia. Qed.

Lemma mine_kind g v :
  mine g v = true <-> exists rk, piece_kind v = Some (mover g, rk).
Proof.
  unfold mine, mover. destruct (current_player g =? 1).
  - rewrite py_in_12. split.
    + intros [-> | ->]; eauto.
    + intros [rk Hk]. unfold piece_kind in Hk.
      destruct (Z.eqb_spec v 1); [first [lia | discriminate Hk] |].
      destruct (Z.eqb_spec v 2); [first [lia | discriminate Hk] |].
      destruct (Z.eqb_spec v 3); [first [lia | discriminate Hk] |].
      destruct (Z.eqb_spec v 4); [first [lia | discriminate Hk] |].
      discriminate Hk.
  - rewrite py_in_34. split.
    + intros [-> | ->]; eauto.
    + intros [rk Hk]. unfold piece_kind in Hk.
      destruct (Z.eqb_spec v 1); [first [lia | discriminate Hk] |].
      destruct (Z.eqb_spec v 2); [first [lia | discriminate Hk] |].
      destruct (Z.eqb_spec v 3); [first [lia | discriminate Hk] |].
      destruct (Z.eqb_spec v 4); [first [lia | discriminate Hk] |].
      discriminate Hk.
Qed.

Lemma theirs_kind g v :
  theirs g v = true <-> exists rk, piece_kind v = Some (other_side (mover g), rk).
Proof.
  unfold theirs, mover. destruct (current_player g =? 1).
  - rewrite py_in_34. split.
    + intros [-> | ->]; eauto.
    + intros [rk Hk]. unfold piece_kind in Hk.
      destruct (Z.eqb_spec v 1); [first [lia | discriminate Hk] |].
      destruct (Z.eqb_spec v 2); [first [lia | discriminate Hk] |].
      destruct (Z.eqb_spec v 3); [first [lia | discriminate Hk] |].
      destruct (Z.eqb_spec v 4); [first [lia | discriminate Hk] |].
      discriminate Hk.
  - rewrite py_in_12. split.
    + intros [-> | ->]; eauto.
    + intros [rk Hk]. unfold piece_kind in Hk.
      destruct (Z.eqb_spec v 1); [first [lia | discriminate Hk] |].
      destruct (Z.eqb_spec v 2); [first [lia | discriminate Hk] |].
      destruct (Z.eqb_spec v 3); [first [lia | discriminate Hk] |].
      destruct (Z.eqb_spec v 4); [first [lia | discriminate Hk] |].
      discriminate Hk.
Qed.

Lemma mine_not_theirs g v : mine g v = true -> theirs g v = false.
Proof.
  intros [rk Hk]%mine_kind. destruct (theirs g v) eqn:Ht; [| done].
  apply theirs_kind in Ht as [rk' Hk']. rewrite Hk in Hk'.
  injection Hk' as Hsd _. by destruct (mover g).
Qed.

Lemma mine_kinged g v row : mine g v = true -> mine g (kinged v row) = true.
Proof.
  intros [rk Hk]%mine_kind. apply mine_kind.
  rewrite (kinged_kind v row _ _ Hk). eauto.
Qed.

Lemma ownership_swaps g g' v :
  current_player g = 1 \/ current_player g = -1 ->
  current_player g' = - current_player g ->
  mine g' v = theirs g v /\ theirs g' v = mine g v.
Proof.
  unfold mine, theirs. intros [Hcp | Hcp] ->; rewrite Hcp; done.
Qed.

(** X11: after a legal move the turn belongs to the other side.  From an
    8x8 board with [current_player] 1 or -1, once [make_move] has applied a
    move returned by [get_valid_moves], the two ownership tests have
    swapped their answers, and every move [get_valid_moves] returns next
    starts on a square holding a piece that the tests counted as an
    opponent's before the move and that the move has not touched. *)
Theorem turn_passes_to_opponent g ms m :
  wf_game g -> current_player g = 1 \/ current_player g = -1 ->
  get_valid_moves g = (g, inr ms) -> In m ms ->
  exists g',
    make_move m.1 m.2 g = (g', inr tt) /\
    (forall v, mine g' v = theirs g v /\ theirs g' v = mine g v) /\
    exists ms',
      get_valid_moves g' = (g', inr ms') /\
      forall m', In m' ms' ->
        exists v, cell g m'.1 = Some v /\ cell g' m'.1 = Some v /\
                  theirs g v = true.
Proof.
  intros Hwf Hcp Hrun Hin.
  destruct (valid_move_applies g ms m Hwf Hrun Hin)
    as (g' & piece & d & _ & _ & _ & Hpiece & Hmine & _ & _ & Hmove & Hwf' &
        Hcp' & Hstart & Hd & Hmid & Hframe & _).
  exists g'. split; [done |].
  split; [intros v; by apply ownership_swaps |].
  destruct (get_valid_moves_spec g' Hwf') as (ms' & Hrun' & _).
  exists ms'. split; [done |]. intros m' Hin'.
  destruct (valid_move_applies g' ms' m' Hwf' Hrun' Hin')
    as (_ & v & _ & _ & Hq & _ & Hv & Hmine' & _).
  exists v.
  assert (theirs g v = true) as Htheirs.
  { by rewrite <- (proj1 (ownership_swaps g g' v Hcp Hcp')). }
  assert (v <> 0) as Hnz by by eapply mine_nonzero.
  split; [| done].
  rewrite <- Hframe; [done | done | | |].
  - intros Heq. rewrite Heq in Hv. congruence.
  - intros Heq. rewrite Heq, Hd in Hv. injection Hv as <-.
    rewrite (mine_not_theirs g _ (mine_kinged g piece d.1 Hmine)) in Htheirs.
    done.
  - intros Hq'. apply Hmid in Hq' as (_ & H0 & _). congruence.
Qed.

Lemma turn_passes_to_opponent_witness :
  exists g',
    make_move (4, 3) [(6, 5)] double_jump_position = (g', inr tt) /\
    (forall v, mine g' v = theirs double_jump_position v /\
               theirs g' v = mine double_jump_position v) /\
    exists ms',
      get_valid_moves g' = (g', inr ms') /\
      forall m', In m' ms' ->
        exists v, cell double_jump_position m'.1 = Some v /\
                  cell g' m'.1 = Some v /\
                  theirs double_jump_position v = true.
Proof.
  apply (turn_passes_to_opponent double_jump_position [((4, 3), [(6, 5)])]
           ((4, 3), [(6, 5)])).
  - apply wf_double_jump_position.
  - left. reflexivity.
  - vm_compute. reflexivity.
  - left. reflexivity.
Defined.

Lemma count_except (ps : list pos) : forall (f f' : pos -> bool) (l : list pos),
  NoDup l -> NoDup ps -> (forall p, In p ps -> In p l) ->
  (forall q, In q l -> ~ In q ps -> f' q = f q) ->
  (length (List.filter f' l) + length (List.filter f ps) =
   length (List.filter f l) + length (List.filter f' ps))%nat.
Proof.
  induction ps as [| p ps IH]; intros f f' l Hl Hps Hsub Hsame.
  - simpl. rewrite (filter_ext_in f' f l); [done |].
    intros q Hq. apply Hsame; [done | intros []].
  - apply NoDup_cons in Hps as [Hp Hps]. rewrite list_elem_of_In in Hp.
    set (f1 := fun q => if decide (q = p) then f' p else f q).
    assert (In p l) as Hpl by (apply Hsub; by left).
    pose proof (count_pointwise f f1 l p Hl Hpl) as H1.
    assert (f1 p = f' p) as Hf1p by (unfold f1; by rewrite decide_True).
    rewrite Hf1p in H1.
    assert (forall q, q <> p -> f1 q = f q) as Hf1q.
    { intros q Hq. unfold f1. by rewrite decide_False. }
    specialize (H1 (fun q _ Hq => Hf1q q Hq)).
    assert (length (List.filter f' l) + length (List.filter f1 ps) =
            length (List.filter f1 l) + length (List.filter f' ps))%nat as H2.
    { apply IH; [done | done | intros q Hq; apply Hsub; by right |].
      intros q Hq Hnq. destruct (decide (q = p)) as [-> | Hne]; [done |].
      rewrite Hf1q by done. apply Hsame; [done |]. intros [? | ?]; done. }
    rewrite (filter_ext_in f1 f ps) in H2.
    2:{ intros q Hq. apply Hf1q. intros ->. done. }
    simpl. destruct (f p), (f' p); simpl in *; lia.
Qed.

Lemma same_side_refl sd : same_side sd sd = true.
Proof. by destruct sd. Qed.

Lemma same_side_other sd :
  same_side (other_side sd) sd = false /\ same_side sd (other_side sd) = false.
Proof. by destruct sd. Qed.

Lemma holds_side_cell g sd p v :
  cell g p = Some v ->
  holds_side g sd p =
    match piece_kind v with
    | Some (sd', _) => same_side sd' sd
    | None => false
    end.
Proof. unfold holds_side. by intros ->. Qed.

(** What a legal move does to the number of pieces of a side. *)
Lemma applies_side_counts g m g' :
  wf_game g -> applies g m g' ->
  count_side g' (mover g) = count_side g (mover g) /\
  (count_side g' (other_side (mover g)) + capture_steps m.1 m.2 =
   count_side g (other_side (mover g)))%nat.
Proof.
  intros Hwf (piece & d & Hm2 & Hs & Hd & Hpiece & Hmine & Hempty & _ & _ & _ &
              _ & Hstart & Hland & Hmid & Hframe & _).
  rewrite capture_steps_midpoints.
  set (mids := capture_midpoints m.1 m.2) in *.
  assert (mids = [] \/ exists q, mids = [q]) as Hmids.
  { unfold mids. rewrite Hm2. simpl.
    destruct (Z.abs (d.1 - m.1.1) =? 2); simpl; eauto. }
  pose proof (mine_nonzero g piece Hmine) as Hnz.
  apply mine_kind in Hmine as [rk Hkind].
  pose proof (kinged_kind piece d.1 _ _ Hkind) as Hkind'.
  assert (m.1 <> d) as Hsd by (intros Heq; rewrite Heq in Hpiece; congruence).
  assert (forall sd,
    (count_side g' sd +
     length (List.filter (holds_side g sd) (m.1 :: d :: mids)) =
     count_side g sd +
     length (List.filter (holds_side g' sd) (m.1 :: d :: mids)))%nat) as Hcount.
  { intros sd. unfold count_side. apply count_except.
    - apply NoDup_squares.
    - apply NoDup_cons. split.
      { intros [Heq | Hin]%elem_of_cons; [done |].
        apply list_elem_of_In, Hmid in Hin as (_ & _ & j & Hj & Ht).
        rewrite Hpiece in Hj. injection Hj as <-.
        apply theirs_kind in Ht as [rk' Hk']. rewrite Hkind in Hk'.
        injection Hk' as Hbad _. by destruct (mover g). }
      apply NoDup_cons. split.
      { intros Hin%list_elem_of_In.
        apply Hmid in Hin as (_ & _ & j & Hj & Ht%theirs_nonzero).
        congruence. }
      destruct Hmids as [-> | [q ->]]; [apply NoDup_nil_2 |].
      apply NoDup_singleton.
    - intros q [<- | [<- | Hq]]; apply in_squares; [done | done |].
      by apply Hmid in Hq as (? & _).
    - intros q Hq Hnot. apply in_squares in Hq. unfold holds_side.
      rewrite Hframe; [done | done | | |]; intros ?; apply Hnot; simpl; auto. }
  assert (forall sd,
    length (List.filter (holds_side g sd) (m.1 :: d :: mids)) =
      (Nat.b2n (same_side (mover g) sd) +
       (if same_side (other_side (mover g)) sd then length mids else 0))%nat /\
    length (List.filter (holds_side g' sd) (m.1 :: d :: mids)) =
      Nat.b2n (same_side (mover g) sd)) as Hparts.
  { intros sd. simpl List.filter.
    rewrite (holds_side_cell g sd _ _ Hpiece), Hkind.
    rewrite (holds_side_cell g sd _ _ Hempty).
    rewrite (holds_side_cell g' sd _ _ Hstart).
    rewrite (holds_side_cell g' sd _ _ Hland), Hkind'. simpl piece_kind.
    destruct Hmids as [-> | [q Hq]].
    - simpl. destruct (same_side (mover g) sd),
        (same_side (other_side (mover g)) sd); simpl; lia.
    - rewrite Hq. simpl List.filter.
      destruct (Hmid q) as (_ & Hq0 & j & Hj & Ht); [rewrite Hq; by left |].
      apply theirs_kind in Ht as [rk' Hk'].
      rewrite (holds_side_cell g sd _ _ Hj), Hk'.
      rewrite (holds_side_cell g' sd _ _ Hq0). simpl piece_kind.
      destruct (same_side (mover g) sd),
        (same_side (other_side (mover g)) sd); simpl; lia. }
  split.
  - pose proof (Hcount (mover g)) as Hc.
    destruct (Hparts (mover g)) as [Hp1 Hp2]. rewrite Hp1, Hp2 in Hc.
    rewrite (proj1 (same_side_other (mover g))) in Hc. lia.
  - pose proof (Hcount (other_side (mover g))) as Hc.
    destruct (Hparts (other_side (mover g))) as [Hp1 Hp2].
    rewrite Hp1, Hp2 in Hc.
    rewrite same_side_refl, (proj2 (same_side_other (mover g))) in Hc.
    simpl in Hc. lia.
Qed.

(** X12: a legal move never costs the mover a piece.  After [make_move] has
    applied a move returned by [get_valid_moves] on an 8x8 board, the side
    that moved has as many pieces as before, and the other side has lost
    exactly as many as the move has steps of two rows. *)
Theorem legal_move_side_counts g ms m :
  wf_game g -> get_valid_moves g = (g, inr ms) -> In m ms ->
  exists g',
    make_move m.1 m.2 g = (g', inr tt) /\
    count_side g' (mover g) = count_side g (mover g) /\
    (count_side g' (other_side (mover g)) + capture_steps m.1 m.2 =
     count_side g (other_side (mover g)))%nat.
Proof.
  intros Hwf Hrun Hin.
  destruct (valid_move_applies g ms m Hwf Hrun Hin) as (g' & Happ).
  exists g'. split; [| by apply applies_side_counts].
  by destruct Happ as (? & ? & _ & _ & _ & _ & _ & _ & _ & ? & _).
Qed.

Lemma legal_move_side_counts_witness :
  exists g',
    make_move (4, 3) [(6, 5)] double_jump_position = (g', inr tt) /\
    count_side g' (mover double_jump_position) =
      count_side double_jump_position (mover double_jump_position) /\
    (count_side g' (other_side (mover double_jump_position)) +
       capture_steps (4, 3)%Z [(6, 5)%Z] =
     count_side double_jump_position
       (other_side (mover double_jump_position)))%nat.
Proof.
  apply (legal_move_side_counts double_jump_position [((4, 3), [(6, 5)])]
           ((4, 3), [(6, 5)])).
  - apply wf_double_jump_position.
  - vm_compute. reflexivity.
  - left. reflexivity.
Defined.

(** ** The text dump *)

#[local] Transparent range.

Lemma symbols_valid v :
  0 <= v <= 4 -> exists ch, symbols !! v = Some (String ch "").
Proof.
  intros Hv. assert (v = 0 \/ v = 1 \/ v = 2 \/ v = 3 \/ v = 4) as Hc by lia.
  destruct Hc as [-> | [-> | [-> | [-> | ->]]]]; eexists; by vm_compute.
Qed.

Lemma symbols_invalid v : ~ 0 <= v <= 4 -> symbols !! v = None.
Proof.
  intros Hv. unfold symbols.
  rewrite !lookup_insert_ne by lia. apply lookup_empty.
Qed.

Lemma symbols_Some v sym : symbols !! v = Some sym -> 0 <= v <= 4.
Proof.
  intros Hs. destruct (decide (0 <= v <= 4)) as [? | Hn]; [done |].
  rewrite (symbols_invalid v Hn) in Hs. done.
Qed.

Lemma symbols_inj v v' sym :
  symbols !! v = Some sym -> symbols !! v' = Some sym -> v = v'.
Proof.
  intros Hv Hv'.
  pose proof (symbols_Some _ _ Hv) as Hr. pose proof (symbols_Some _ _ Hv') as Hr'.
  assert (v = 0 \/ v = 1 \/ v = 2 \/ v = 3 \/ v = 4) as Hc by lia.
  assert (v' = 0 \/ v' = 1 \/ v' = 2 \/ v' = 3 \/ v' = 4) as Hc' by lia.
  destruct Hc as [-> | [-> | [-> | [-> | ->]]]];
    destruct Hc' as [-> | [-> | [-> | [-> | ->]]]];
    try done; vm_compute in Hv, Hv'; congruence.
Qed.

Lemma read_only_str : read_only __str__.
Proof.
  unfold __str__. apply read_only_for_each. intros board_str i.
  apply read_only_bind; [| intros; ro_auto].
  apply read_only_for_each. intros board_str' j.
  apply read_only_bind; [ro_auto |]. intros v.
  apply read_only_bind; [| intros; ro_auto].
  unfold symbols_getitem. destruct (symbols !! v); ro_auto.
Qed.

(** A loop that only reads and may raise [KeyError]: either every element
    satisfies [ok] and the loop returns the left fold of [step], or some
    element does not and the loop raises. *)
Lemma for_each_or_key_error {A S : Type} (ok : A -> Prop) (step : S -> A -> S)
    (body : S -> A -> M S) g (xs : list A) :
  (forall s x, In x xs ->
     (ok x /\ body s x g = (g, inr (step s x))) \/
     (~ ok x /\ body s x g = (g, inl KeyError))) ->
  forall acc,
    (Forall ok xs /\ for_each xs body acc g = (g, inr (fold_left step xs acc))) \/
    (~ Forall ok xs /\ for_each xs body acc g = (g, inl KeyError)).
Proof.
  induction xs as [| x xs IH]; intros Hstep acc.
  - left. by split.
  - rewrite for_each_cons.
    destruct (Hstep acc x) as [[Hok Hrun] | [Hbad Hrun]]; [by left | |].
    + rewrite (bind_ok _ _ g g (step acc x)) by done.
      destruct (IH (fun s y Hy => Hstep s y (or_intror Hy)) (step acc x))
        as [[Hall Hrest] | [Hnot Hrest]].
      * left. split; [by constructor | done].
      * right. split; [| done]. intros Hall. apply Hnot.
        by apply Forall_cons in Hall as [_ ?].
    + right. split; [| by apply (bind_raise _ _ g g)].
      intros Hall. apply Hbad. by apply Forall_cons in Hall as [? _].
Qed.

Lemma glyph_valid g p v ch :
  cell g p = Some v -> symbols !! v = Some (String ch "") -> glyph g p = ch.
Proof. unfold glyph. by intros -> ->. Qed.

(** [__str__] on an 8x8 board: the text of [dump] when every square holds a
    key of [symbols], a [KeyError] otherwise. *)
Lemma str_cases g :
  wf_game g ->
  (valid_cells g /\ __str__ g = (g, inr (dump (glyph g)))) \/
  (~ valid_cells g /\ __str__ g = (g, inl KeyError)).
Proof.
  intros Hwf.
  pose (ok_cell := fun (i j : Z) =>
          exists v, cell g (i, j) = Some v /\ 0 <= v <= 4).
  assert (forall i, 0 <= i < 8 -> forall acc,
    (Forall (ok_cell i) (range 0 8) /\
     for_each (range 0 8)
       (fun board_str j =>
          let* v := board_get i j in
          let* sym := symbols_getitem v in
          ret (board_str +:+ (sym +:+ " "))) acc g =
     (g, inr (fold_left
                (fun board_str j =>
                   board_str +:+ (String (glyph g (i, j)) "" +:+ " "))
                (range 0 8) acc))) \/
    (~ Forall (ok_cell i) (range 0 8) /\
     for_each (range 0 8)
       (fun board_str j =>
          let* v := board_get i j in
          let* sym := symbols_getitem v in
          ret (board_str +:+ (sym +:+ " "))) acc g = (g, inl KeyError)))
    as Hrow.
  { intros i Hi acc. apply for_each_or_key_error. intros s j Hj.
    apply in_range in Hj.
    destruct (cell_on g (i, j) Hwf) as [v Hv]; [done |].
    rewrite (bind_ok _ _ g g v) by by apply board_get_cell.
    unfold symbols_getitem.
    destruct (decide (0 <= v <= 4)) as [Hval | Hinv].
    - left. split; [by exists v |].
      destruct (symbols_valid v Hval) as [ch Hch]. rewrite Hch.
      rewrite (bind_ok _ _ g g (String ch "")) by done.
      by rewrite (glyph_valid g (i, j) v ch).
    - right. split.
      + intros (v' & Hv' & Hr). congruence.
      + rewrite (symbols_invalid v Hinv). by apply (bind_raise _ _ g g). }
  destruct (for_each_or_key_error
              (fun i => Forall (ok_cell i) (range 0 8))
              (fun board_str i =>
                 fold_left
                   (fun board_str j =>
                      board_str +:+ (String (glyph g (i, j)) "" +:+ " "))
                   (range 0 8) (board_str +:+ (pretty i +:+ " "))
                 +:+ newline)
              (fun board_str i =>
                 let board_str := board_str +:+ (pretty i +:+ " ") in
                 let* board_str :=
                   for_each (range 0 8)
                     (fun board_str j =>
                        let* v := board_get i j in
                        let* sym := symbols_getitem v in
                        ret (board_str +:+ (sym +:+ " "))) board_str in
                 ret (board_str +:+ newline))
              g (range 0 8)) with (acc := "  0 1 2 3 4 5 6 7" +:+ newline)
    as [[Hall Hrun] | [Hnot Hrun]].
  { intros s i Hi. apply in_range in Hi. cbv zeta.
    destruct (Hrow i Hi (s +:+ (pretty i +:+ " "))) as [[Hok Hr] | [Hbad Hr]].
    - left. split; [done |]. by rewrite (bind_ok _ _ g g _ Hr).
    - right. split; [done |]. by apply (bind_raise _ _ g g). }
  - left. split; [| exact Hrun].
    intros [i j] [Hi Hj]. simpl in *.
    rewrite List.Forall_forall in Hall.
    assert (Forall (ok_cell i) (range 0 8)) as Hrowi
      by (apply Hall; by apply in_range).
    rewrite List.Forall_forall in Hrowi. apply Hrowi. by apply in_range.
  - right. split; [| exact Hrun].
    intros Hvalid. apply Hnot. apply List.Forall_forall. intros i Hi.
    apply List.Forall_forall. intros j Hj.
    apply in_range in Hi, Hj. by apply (Hvalid (i, j)).
Qed.

Lemma dump_length ch : String.length (dump ch) = 170%nat.
Proof. by vm_compute. Qed.

Lemma dump_char ch p :
  on_board p -> String.substring (text_offset p) 1 (dump ch) = String (ch p) "".
Proof.
  intros Hp. apply in_squares in Hp. unfold squares in Hp.
  vm_compute in Hp.
  repeat (destruct Hp as [<- | Hp]; [by vm_compute |]). destruct Hp.
Qed.

Lemma valid_cells_board g h : board g = board h -> valid_cells g -> valid_cells h.
Proof. intros Hb Hv p Hp. unfold cell. rewrite <- Hb. by apply Hv. Qed.

Lemma glyph_board g h : board g = board h -> forall p, glyph g p = glyph h p.
Proof. intros Hb p. unfold glyph, cell. by rewrite Hb. Qed.

Lemma dump_ext ch ch' : (forall p, ch p = ch' p) -> dump ch = dump ch'.
Proof.
  intros Hext. unfold dump.
  assert (forall (rows : list Z) acc,
    fold_left
      (fun board_str i =>
         fold_left (fun board_str j => board_str +:+ (String (ch (i, j)) "" +:+ " "))
                   (range 0 8) (board_str +:+ (pretty i +:+ " ")) +:+ newline)
      rows acc =
    fold_left
      (fun board_str i =>
         fold_left (fun board_str j => board_str +:+ (String (ch' (i, j)) "" +:+ " "))
                   (range 0 8) (board_str +:+ (pretty i +:+ " ")) +:+ newline)
      rows acc) as Hrows; [| apply Hrows].
  induction rows as [| i rows IH]; intros acc; [done |]. simpl fold_left at 1 3.
  rewrite IH. f_equal. by rewrite !Hext.
Qed.

Lemma dump_glyph_symbol g p :
  valid_cells g -> on_board p ->
  exists v sym,
    cell g p = Some v /\ symbols !! v = Some sym /\
    String.substring (text_offset p) 1 (dump (glyph g)) = sym.
Proof.
  intros Hvalid Hp. destruct (Hvalid p Hp) as (v & Hv & Hr).
  destruct (symbols_valid v Hr) as [ch Hch].
  exists v, (String ch ""). split; [done |]. split; [done |].
  by rewrite (dump_char _ p Hp), (glyph_valid g p v ch).
Qed.

(** X13: the text of a board.  On an 8x8 board whose squares all hold values
    from 0 to 4, [__str__] returns, without touching the engine, a text of
    170 characters in which the character at offset 20 + 19*row + 2*col is
    the symbol of the square (row, col); the text does not depend on the
    side to move. *)
Theorem str_text g :
  wf_game g -> valid_cells g ->
  exists s,
    __str__ g = (g, inr s) /\ String.length s = 170%nat /\
    (forall p, on_board p ->
       exists v sym,
         cell g p = Some v /\ symbols !! v = Some sym /\
         String.substring (text_offset p) 1 s = sym) /\
    (forall player,
       __str__ (mkGame (board g) player) = (mkGame (board g) player, inr s)).
Proof.
  intros Hwf Hvalid. exists (dump (glyph g)).
  destruct (str_cases g Hwf) as [[_ Hrun] | [Hbad _]]; [| done].
  split; [done |]. split; [apply dump_length |]. split.
  - intros p Hp. by apply dump_glyph_symbol.
  - intros player.
    destruct (str_cases (mkGame (board g) player) Hwf) as [[_ Hrun'] | [Hbad _]].
    + rewrite Hrun'.
      rewrite (dump_ext (glyph (mkGame (board g) player)) (glyph g));
        [done | by apply glyph_board].
    + exfalso. apply Hbad. by apply (valid_cells_board g).
Qed.

Lemma valid_cells_new_game : valid_cells new_game.
Proof.
  assert (Forall (fun p : pos =>
                    match cell new_game p with
                    | Some v => 0 <= v <= 4
                    | None => False
                    end) squares) as Hall.
  { apply List.Forall_forall. intros p Hp. unfold squares in Hp.
    vm_compute in Hp.
    repeat (destruct Hp as [<- | Hp]; [vm_compute; split; discriminate |]).
    destruct Hp. }
  intros p Hp. apply in_squares in Hp. rewrite List.Forall_forall in Hall.
  specialize (Hall p Hp). destruct (cell new_game p) as [v |]; [eauto | done].
Qed.

Lemma str_text_witness :
  exists s,
    __str__ new_game = (new_game, inr s) /\ String.length s = 170%nat /\
    (forall p, on_board p ->
       exists v sym,
         cell new_game p = Some v /\ symbols !! v = Some sym /\
         String.substring (text_offset p) 1 s = sym) /\
    (forall player,
       __str__ (mkGame (board new_game) player) =
         (mkGame (board new_game) player, inr s)).
Proof.
  apply (str_text new_game); [apply wf_new_game | apply valid_cells_new_game].
Defined.

(** X14: a value that is not a key of [symbols] makes the dump fail: if a
    square of an 8x8 board holds a value outside 0..4, [__str__] raises
    [KeyError] (and leaves the engine as it was). *)
Theorem str_key_error g p v :
  wf_game g -> on_board p -> cell g p = Some v -> ~ 0 <= v <= 4 ->
  __str__ g = (g, inl KeyError).
Proof.
  intros Hwf Hp Hv Hbad.
  destruct (str_cases g Hwf) as [[Hvalid _] | [_ Hrun]]; [| done].
  destruct (Hvalid p Hp) as (v' & Hv' & Hr). congruence.
Qed.

Lemma str_key_error_witness :
  __str__ (poke new_game (3, 3) 5) = (poke new_game (3, 3) 5, inl KeyError).
Proof.
  apply (str_key_error (poke new_game (3, 3) 5) (3, 3) 5).
  - apply wf_board_concrete. vm_compute. reflexivity.
  - split; simpl; lia.
  - vm_compute. reflexivity.
  - lia.
Defined.

Lemma board_ext b1 b2 :
  wf_board b1 -> wf_board b2 ->
  (forall p, on_board p -> ndarray_get b1 p.1 p.2 = ndarray_get b2 p.1 p.2) ->
  b1 = b2.
Proof.
  intros [Hl1 Ha1] [Hl2 Ha2] Hget. apply list_eq. intros i.
  destruct (decide (i < 8)%nat) as [Hi | Hi].
  2:{ rewrite !lookup_ge_None_2 by lia. done. }
  destruct (lookup_lt_is_Some_2 b1 i) as [r1 Hr1]; [lia |].
  destruct (lookup_lt_is_Some_2 b2 i) as [r2 Hr2]; [lia |].
  rewrite Hr1, Hr2. f_equal.
  assert (length r1 = 8%nat) as Hlr1.
  { rewrite Forall_lookup in Ha1. by apply (Ha1 i). }
  assert (length r2 = 8%nat) as Hlr2.
  { rewrite Forall_lookup in Ha2. by apply (Ha2 i). }
  apply list_eq. intros j.
  destruct (decide (j < 8)%nat) as [Hj | Hj].
  2:{ rewrite !lookup_ge_None_2 by lia. done. }
  specialize (Hget (Z.of_nat i, Z.of_nat j)). simpl in Hget.
  unfold ndarray_get in Hget.
  rewrite Hl1, Hl2, !py_index_on, !Nat2Z.id, Hr1, Hr2 in Hget by lia.
  rewrite Hlr1, Hlr2, !py_index_on, !Nat2Z.id in Hget by lia.
  apply Hget. split; simpl; lia.
Qed.

(** X15: the text determines the board.  If [__str__] returns the same text
    for two 8x8 boards, the two boards are equal square by square (the side
    to move is not in the text). *)
Theorem str_injective g1 g2 s :
  wf_game g1 -> wf_game g2 ->
  __str__ g1 = (g1, inr s) -> __str__ g2 = (g2, inr s) ->
  board g1 = board g2.
Proof.
  intros Hwf1 Hwf2 Hs1 Hs2.
  destruct (str_cases g1 Hwf1) as [[Hv1 Hr1] | [_ Hk]]; [| congruence].
  destruct (str_cases g2 Hwf2) as [[Hv2 Hr2] | [_ Hk]]; [| congruence].
  assert (dump (glyph g1) = s) as Hs1' by congruence.
  assert (dump (glyph g2) = s) as Hs2' by congruence.
  apply board_ext; [done | done |]. intros p Hp.
  destruct (dump_glyph_symbol g1 p Hv1 Hp) as (v1 & sym1 & Hc1 & Hy1 & Hsub1).
  destruct (dump_glyph_symbol g2 p Hv2 Hp) as (v2 & sym2 & Hc2 & Hy2 & Hsub2).
  rewrite Hs1' in Hsub1. rewrite Hs2' in Hsub2.
  change (cell g1 p = cell g2 p). rewrite Hc1, Hc2. f_equal.
  apply (symbols_inj v1 v2 sym1); [done | congruence].
Qed.

Lemma str_injective_witness :
  board new_game = board (mkGame (board new_game) (-1)).
Proof.
  eapply (str_injective new_game (mkGame (board new_game) (-1))).
  - apply wf_new_game.
  - apply wf_new_game.
  - vm_compute. reflexivity.
  - vm_compute. reflexivity.
Defined.

(** ** Invariants of a game *)

Lemma kinged_range piece row : 1 <= piece <= 4 -> 1 <= kinged piece row <= 4.
Proof.
  unfold kinged. intros H.
  destruct ((piece =? 1) && (row =? 7)); [lia |].
  destruct ((piece =? 3) && (row =? 0)); lia.
Qed.

Lemma applies_valid_cells g m g' :
  wf_game g -> valid_cells g -> applies g m g' -> valid_cells g'.
Proof.
  intros Hwf Hvalid (piece & d & _ & _ & _ & _ & Hmine & _ & _ & _ & _ & _ &
                     Hstart & Hland & Hmid & Hframe & _) p Hp.
  destruct (decide (p = m.1)) as [-> | Hps]; [exists 0; split; [done | lia] |].
  destruct (decide (p = d)) as [-> | Hpd].
  { exists (kinged piece d.1). split; [done |].
    apply mine_cases in Hmine.
    pose proof (kinged_range piece d.1) as Hk. lia. }
  destruct (decide (p ∈ capture_midpoints m.1 m.2)) as [Hin | Hin].
  { apply list_elem_of_In, Hmid in Hin as (_ & ? & _).
    exists 0. split; [done | lia]. }
  rewrite Hframe; [by apply Hvalid | done | done | done |].
  by rewrite <- list_elem_of_In.
Qed.

(** X16: what every game keeps.  In every state reached from the initial
    one by legal moves, [current_player] is 1 or -1, every square holds a
    value from 0 to 4, neither side has more than 12 pieces, and [__str__]
    returns a text (it cannot raise [KeyError]). *)
Theorem reachable_invariants g :
  reachable g ->
  (current_player g = 1 \/ current_player g = -1) /\
  valid_cells g /\
  (count_side g Black <= 12)%nat /\ (count_side g White <= 12)%nat /\
  exists s, __str__ g = (g, inr s).
Proof.
  intros Hreach.
  assert ((current_player g = 1 \/ current_player g = -1) /\
          valid_cells g /\
          (count_side g Black <= 12)%nat /\ (count_side g White <= 12)%nat)
    as (Hcp & Hvalid & Hb & Hw).
  { induction Hreach as [| g ms m g' Hreach (Hcp & Hvalid & Hb & Hw) Hrun Hin Hmove].
    - split; [by left |]. split; [apply valid_cells_new_game |].
      split; by vm_compute.
    - destruct (reachable_wf_dark g Hreach) as [Hwf _].
      destruct (valid_move_applies g ms m Hwf Hrun Hin) as (g'' & Happ).
      assert (g'' = g') as ->.
      { destruct Happ as (? & ? & _ & _ & _ & _ & _ & _ & _ & Hmove' & _).
        congruence. }
      pose proof (applies_side_counts g m g' Hwf Happ) as [Hsame Hless].
      split.
      { destruct Happ as (? & ? & _ & _ & _ & _ & _ & _ & _ & _ & _ & Hflip & _).
        lia. }
      split; [by eapply applies_valid_cells |].
      destruct (mover g); cbn [other_side] in Hsame, Hless; split; lia. }
  split; [exact Hcp |]. split; [exact Hvalid |]. split; [exact Hb |].
  split; [exact Hw |].
  destruct (reachable_wf_dark g Hreach) as [Hwf _].
  destruct (str_cases g Hwf) as [[_ Hs] | [Hbad _]]; [| done].
  exists (dump (glyph g)). exact Hs.
Qed.

Lemma reachable_invariants_witness :
  reachable after_first_move /\
  (current_player after_first_move = 1 \/
   current_player after_first_move = -1) /\
  valid_cells after_first_move /\
  (count_side after_first_move Black <= 12)%nat /\
  (count_side after_first_move White <= 12)%nat /\
  exists s, __str__ after_first_move = (after_first_move, inr s).
Proof.
  assert (reachable after_first_move) as Hreach.
  { apply (reachable_move new_game
             [ ((2, 1), [(3, 0)]); ((2, 1), [(3, 2)]); ((2, 3), [(3, 2)]);
               ((2, 3), [(3, 4)]); ((2, 5), [(3, 4)]); ((2, 5), [(3, 6)]);
               ((2, 7), [(3, 6)]) ]
             ((2, 1), [(3, 0)])).
    - apply reachable_new.
    - vm_compute. reflexivity.
    - left. reflexivity.
    - vm_compute. reflexivity. }
  split; [exact Hreach |].
  apply (reachable_invariants after_first_move Hreach).
Defined.
